(** * A shallow embedding of [src/parser.ts]

    The assembler of a small 16-bit instruction set: [parseLine] turns one
    line of text into a decoded instruction (operand values, semantic
    action, encoded hex word), [parse] assembles a whole program, and the
    semantic actions [mov1] ... [readm] act on the shared execution state
    ([REG], [MEM], [OUT], [COUNTER]).

    JavaScript strings are sequences of UTF-16 code units, JavaScript
    numbers are IEEE doubles.  Every number this program computes is an
    integer, an infinity, a negative zero or NaN, so a number is modelled
    by [number] below and the rounding of doubles is written out. *)

From Stdlib Require Import ZArith NArith List Ascii String Lia Bool.
From stdpp Require Import base option list countable gmap.

Local Open Scope Z_scope.

(** ** Strings *)

Module JsString.

(** A string is the list of its UTF-16 code units. *)
Abbreviation jsstring := (list N).

(** The code units of an ASCII literal. *)
Definition str (s : string) : jsstring :=
  List.map N_of_ascii (list_ascii_of_string s).

Definition is_digit (c : N) : bool := ((48 <=? c) && (c <=? 57))%N.
Definition is_lower (c : N) : bool := ((97 <=? c) && (c <=? 122))%N.
Definition is_upper (c : N) : bool := ((65 <=? c) && (c <=? 90))%N.

(** The character class [[0-9a-zA-Z]]. *)
Definition is_alnum (c : N) : bool := is_digit c || is_lower c || is_upper c.

(** The literal space of the pattern [' +']. *)
Definition is_space (c : N) : bool := (c =? 32)%N.

(** ECMAScript LineTerminator: LF, CR, LS, PS.  A [.] of a regular
    expression without the [s] flag matches every code unit but these. *)
Definition is_line_terminator (c : N) : bool :=
  ((c =? 10) || (c =? 13) || (c =? 8232) || (c =? 8233))%N.

(** ECMAScript WhiteSpace: TAB, VT, FF, SP, NBSP, ZWNBSP and the
    category Zs. *)
Definition is_white_space (c : N) : bool :=
  ((c =? 9) || (c =? 11) || (c =? 12) || (c =? 32) || (c =? 160)
   || (c =? 5760) || ((8192 <=? c) && (c <=? 8202))
   || (c =? 8239) || (c =? 8287) || (c =? 12288) || (c =? 65279))%N.

(** What [String.prototype.trim] removes. *)
Definition is_trim_space (c : N) : bool :=
  is_white_space c || is_line_terminator c.

Fixpoint drop_while (p : N -> bool) (s : jsstring) : jsstring :=
  match s with
  | [] => []
  | c :: s' => if p c then drop_while p s' else s
  end.

(** The longest prefix whose code units satisfy [p], and the rest. *)
Fixpoint span (p : N -> bool) (s : jsstring) : jsstring * jsstring :=
  match s with
  | [] => ([], [])
  | c :: s' =>
      if p c then let '(a, b) := span p s' in (c :: a, b) else ([], s)
  end.

(** [s.trim()] *)
Definition trim (s : jsstring) : jsstring :=
  rev (drop_while is_trim_space (rev (drop_while is_trim_space s))).

(** [s.split(sep)] for a separator of one code unit: never empty. *)
Fixpoint split (sep : N) (s : jsstring) : list jsstring :=
  match s with
  | [] => [[]]
  | c :: s' =>
      if (c =? sep)%N then [] :: split sep s'
      else match split sep s' with
           | [] => [[c]]
           | w :: ws => (c :: w) :: ws
           end
  end.

(** [s.toUpperCase()] on ASCII; its one argument in this program is the
    result of [toHex], which is ASCII (see [toHex_ascii]). *)
Definition toUpperCase (s : jsstring) : jsstring :=
  List.map (fun c => if is_lower c then (c - 32)%N else c) s.

(** [!s]: the empty string is the only falsy string. *)
Definition is_empty (s : jsstring) : bool :=
  match s with [] => true | _ => false end.

End JsString.
Export JsString.

(** ** Numbers *)

Module JsNumber.

(** The doubles this program can produce: NaN, the infinities, negative
    zero, and the integers ([Fin 0] is positive zero). *)
Inductive number : Type :=
| NaN
| PInf
| NInf
| NZero
| Fin (z : Z).

#[export] Instance number_eq_dec : EqDecision number.
Proof. solve_decision. Defined.

Definition number_code (n : number) : nat + Z :=
  match n with
  | NaN => inl 0%nat
  | PInf => inl 1%nat
  | NInf => inl 2%nat
  | NZero => inl 3%nat
  | Fin z => inr z
  end.

Definition number_decode (c : nat + Z) : number :=
  match c with
  | inl 0%nat => NaN
  | inl 1%nat => PInf
  | inl 2%nat => NInf
  | inl _ => NZero
  | inr z => Fin z
  end.

#[export] Instance number_countable : Countable number.
Proof.
  apply (inj_countable' number_code number_decode).
  by intros [].
Defined.

(** Round a non-negative integer to the nearest double (53 significant
    bits, ties to even); [None] when it rounds to infinity. *)
Definition round_mag (n : Z) : option Z :=
  let k := Z.log2 n in
  if k <? 53 then Some n
  else
    let e := k - 52 in
    let q := Z.shiftr n e in
    let r := n - Z.shiftl q e in
    let half := Z.shiftl 1 (e - 1) in
    let q' :=
      if r <? half then q
      else if half <? r then q + 1
      else if Z.even q then q else q + 1 in
    let v := Z.shiftl q' e in
    if 2 ^ 1024 <=? v then None else Some v.

(** The double nearest to a non-zero integer. *)
Definition of_Z (z : Z) : number :=
  if z <? 0
  then match round_mag (- z) with Some v => Fin (- v) | None => NInf end
  else match round_mag z with Some v => Fin v | None => PInf end.

Definition is_nan (n : number) : bool :=
  match n with NaN => true | _ => false end.

Definition is_inf (n : number) : bool :=
  match n with PInf | NInf => true | _ => false end.

Definition is_zero (n : number) : bool :=
  match n with NZero | Fin 0 => true | _ => false end.

Definition sign_bit (n : number) : bool :=
  match n with
  | NInf | NZero => true
  | Fin z => z <? 0
  | _ => false
  end.

Definition magnitude (n : number) : Z :=
  match n with Fin z => Z.abs z | _ => 0 end.

(** [a + b] *)
Definition js_add (a b : number) : number :=
  match a, b with
  | NaN, _ | _, NaN => NaN
  | PInf, NInf | NInf, PInf => NaN
  | PInf, _ | _, PInf => PInf
  | NInf, _ | _, NInf => NInf
  | NZero, NZero => NZero
  | NZero, Fin z | Fin z, NZero => Fin z
  | Fin x, Fin y => if x + y =? 0 then Fin 0 else of_Z (x + y)
  end.

(** [- a] *)
Definition js_neg (a : number) : number :=
  match a with
  | NaN => NaN
  | PInf => NInf
  | NInf => PInf
  | NZero => Fin 0
  | Fin 0 => NZero
  | Fin z => Fin (- z)
  end.

(** [a - b] *)
Definition js_sub (a b : number) : number := js_add a (js_neg b).

(** [a * b] *)
Definition js_mul (a b : number) : number :=
  if is_nan a || is_nan b then NaN
  else if (is_inf a && is_zero b) || (is_zero a && is_inf b) then NaN
  else
    let neg := xorb (sign_bit a) (sign_bit b) in
    if is_inf a || is_inf b then (if neg then NInf else PInf)
    else
      let p := magnitude a * magnitude b in
      if p =? 0 then (if neg then NZero else Fin 0)
      else of_Z (if neg then - p else p).

(** The 32-bit two's complement reading of an integer. *)
Definition wrap32 (z : Z) : Z :=
  let m := z mod 2 ^ 32 in
  if m <? 2 ^ 31 then m else m - 2 ^ 32.

(** ToInt32: NaN, the infinities and the zeros give 0. *)
Definition ToInt32 (n : number) : Z :=
  match n with
  | Fin z => wrap32 z
  | _ => 0
  end.

(** [a << count], for an integer shift count: the count is taken
    modulo 32 and the result is again a signed 32-bit integer. *)
Definition js_shl (a : number) (count : Z) : number :=
  Fin (wrap32 (Z.shiftl (ToInt32 a) (count mod 32))).

(** [a > k] for an integer literal [k]. *)
Definition js_gt (a : number) (k : Z) : bool :=
  match a with
  | NaN | NInf => false
  | PInf => true
  | NZero => 0 >? k
  | Fin z => z >? k
  end.

(** [a >= k] for an integer [k]. *)
Definition js_ge (a : number) (k : Z) : bool :=
  match a with
  | NaN | NInf => false
  | PInf => true
  | NZero => 0 >=? k
  | Fin z => z >=? k
  end.

(** [a !== 0]: both zeros are equal to 0, NaN is not. *)
Definition js_strict_ne_0 (a : number) : bool := negb (is_zero a).

(** The value of a string of decimal digits. *)
Definition digits_value (ds : jsstring) : Z :=
  fold_left (fun acc c => 10 * acc + (Z.of_N c - 48)) ds 0.

(** [parseInt(s, 10)]: leading white space is skipped, a sign is read,
    then the longest run of decimal digits; NaN when there is none.
    The mathematical value is rounded to a double (the language leaves
    the rounding of more than 20 significant digits to the engine; the
    engines round correctly). *)
Definition parseInt (s : jsstring) : number :=
  let s1 := drop_while is_trim_space s in
  let '(neg, s2) :=
    match s1 with
    | c :: t =>
        if (c =? 45)%N then (true, t)
        else if (c =? 43)%N then (false, t)
        else (false, s1)
    | [] => (false, s1)
    end in
  let '(ds, _) := span is_digit s2 in
  if is_empty ds then NaN
  else
    let n := digits_value ds in
    if n =? 0 then (if neg then NZero else Fin 0)
    else of_Z (if neg then - n else n).

Definition hex_char (d : Z) : N :=
  if d <? 10 then Z.to_N (48 + d) else Z.to_N (87 + d).

Fixpoint hex_digits_aux (fuel : nat) (z : Z) (acc : jsstring) : jsstring :=
  match fuel with
  | O => acc
  | S f =>
      let acc' := hex_char (z mod 16) :: acc in
      if z / 16 =? 0 then acc' else hex_digits_aux f (z / 16) acc'
  end.

(** The base-16 digits of a non-negative integer, lower case, without
    leading zeros (["0"] for 0). *)
Definition hex_digits (z : Z) : jsstring :=
  hex_digits_aux (S (Z.to_nat (Z.log2 z))) z [].

(** [n.toString(16)]: the exact digits.  For integers below 2^53 in
    magnitude that is what every engine prints; beyond, the digits are
    left to the engine.  The words [parseLine] renders are below 2^34 in
    magnitude. *)
Definition toString16 (n : number) : jsstring :=
  match n with
  | NaN => str "NaN"
  | PInf => str "Infinity"
  | NInf => str "-Infinity"
  | NZero => str "0"
  | Fin z => if z <? 0 then 45%N :: hex_digits (- z) else hex_digits z
  end.

End JsNumber.
Export JsNumber.

(** ** Execution state and semantic actions *)

Module Machine.

(** What a variable, an argument or an array slot holds in this program:
    a number, or [undefined] (a missing argument, a slot never
    written). *)
Inductive value : Type :=
| Undefined
| Num (n : number).

#[export] Instance value_eq_dec : EqDecision value.
Proof. solve_decision. Defined.

#[export] Instance value_countable : Countable value.
Proof.
  apply (inj_countable'
           (fun v => match v with Undefined => None | Num n => Some n end)
           (fun o => match o with None => Undefined | Some n => Num n end)).
  by intros [].
Defined.

(** ToNumber *)
Definition to_number (v : value) : number :=
  match v with
  | Undefined => NaN
  | Num n => n
  end.

(** A JavaScript array is an object: [a[k]] reads and [a[k] = v] writes
    the property whose name is ToString(k), whatever [k] is; a write
    past the end extends the array.  ToString sends both zeros to
    ["0"] and is injective otherwise, so a property name is a value
    with negative zero identified with zero.  The [length] of the
    arrays is never read and is not modelled. *)
Definition to_key (k : value) : value :=
  match k with
  | Num NZero => Num (Fin 0)
  | _ => k
  end.

(** [a[k]] *)
Definition get (a : gmap value value) (k : value) : value :=
  default Undefined (a !! to_key k).

(** [a[k] = v] *)
Definition set (a : gmap value value) (k : value) (v : value)
  : gmap value value :=
  <[to_key k := v]> a.

(** [Array(n).fill(0)] *)
Definition zeros (n : nat) : gmap value value :=
  list_to_map
    (List.map (fun i => (Num (Fin (Z.of_nat i)), Num (Fin 0))) (seq 0 n)).

(** The module-level variables [REG], [MEM], [OUT] and [COUNTER]. *)
Record State : Type := mkState {
  REG : gmap value value;
  MEM : gmap value value;
  OUT : gmap value value;
  COUNTER : value
}.

(** [export const TIME = 0] *)
Definition TIME : value := Num (Fin 0).

(** The state when the module has been loaded. *)
Definition initial : State :=
  {| REG := zeros (2 ^ 4); MEM := zeros (2 ^ 8); OUT := ∅;
     COUNTER := Num (Fin 0) |}.

Definition with_REG (s : State) (r : gmap value value) : State :=
  {| REG := r; MEM := MEM s; OUT := OUT s; COUNTER := COUNTER s |}.
Definition with_MEM (s : State) (m : gmap value value) : State :=
  {| REG := REG s; MEM := m; OUT := OUT s; COUNTER := COUNTER s |}.
Definition with_OUT (s : State) (o : gmap value value) : State :=
  {| REG := REG s; MEM := MEM s; OUT := o; COUNTER := COUNTER s |}.
Definition with_COUNTER (s : State) (c : value) : State :=
  {| REG := REG s; MEM := MEM s; OUT := OUT s; COUNTER := c |}.

(** [v !== 0] *)
Definition strict_ne_0 (v : value) : bool :=
  match v with
  | Undefined => true
  | Num n => js_strict_ne_0 n
  end.

(** [a + b], [a - b], [a * b] on values: neither operand is a string,
    so both are converted by ToNumber. *)
Definition plus (a b : value) : value :=
  Num (js_add (to_number a) (to_number b)).
Definition minus (a b : value) : value :=
  Num (js_sub (to_number a) (to_number b)).
Definition times (a b : value) : value :=
  Num (js_mul (to_number a) (to_number b)).

(** [REG[r1] = MEM[direct]] *)
Definition mov1 (r1 direct : value) (s : State) : State :=
  with_REG s (set (REG s) r1 (get (MEM s) direct)).

(** [MEM[direct] = REG[r1]] *)
Definition mov2 (r1 direct : value) (s : State) : State :=
  with_MEM s (set (MEM s) direct (get (REG s) r1)).

(** [MEM[REG[r1]] = REG[r2]] *)
Definition mov3 (r1 r2 : value) (s : State) : State :=
  with_MEM s (set (MEM s) (get (REG s) r1) (get (REG s) r2)).

(** [MEM[r1] = imm] *)
Definition mov4 (r1 imm : value) (s : State) : State :=
  with_MEM s (set (MEM s) r1 imm).

(** [REG[r1] = REG[r2] + REG[r3]] *)
Definition add (r1 r2 r3 : value) (s : State) : State :=
  with_REG s (set (REG s) r1 (plus (get (REG s) r2) (get (REG s) r3))).

(** [REG[r1] = REG[r2] - REG[r3]] *)
Definition subt (r1 r2 r3 : value) (s : State) : State :=
  with_REG s (set (REG s) r1 (minus (get (REG s) r2) (get (REG s) r3))).

(** [if (REG[r1] !== 0) { COUNTER = imm; }] *)
Definition jz (r1 imm : value) (s : State) : State :=
  if strict_ne_0 (get (REG s) r1) then with_COUNTER s imm else s.

(** [return true] *)
Definition halt (s : State) : State := s.

(** [REG[r1] = REG[r2] * REG[r3]] *)
Definition mul (r1 r2 r3 : value) (s : State) : State :=
  with_REG s (set (REG s) r1 (times (get (REG s) r2) (get (REG s) r3))).

(** [REG[r1] = MEM[REG[r2]]] *)
Definition load (r1 r2 : value) (s : State) : State :=
  with_REG s (set (REG s) r1 (get (MEM s) (get (REG s) r2))).

(** [OUT[TIME] = imm] *)
Definition readm (imm : value) (s : State) : State :=
  with_OUT s (set (OUT s) TIME imm).

(** The functions a decoded instruction can refer to. *)
Inductive InstructionEval : Type :=
| Emov1 | Emov2 | Emov3 | Emov4 | Eadd | Esubt | Ejz | Ehalt | Emul
| Eload | Ereadm.

#[export] Instance InstructionEval_eq_dec : EqDecision InstructionEval.
Proof. solve_decision. Defined.

(** The [i]-th argument of a call: [undefined] when it is missing. *)
Definition arg (args : list number) (i : nat) : value :=
  match nth_error args i with
  | Some n => Num n
  | None => Undefined
  end.

(** [evaluate(...args)]: the new state and whether the action returned
    [true] (all but [halt] return nothing).  Arguments beyond the
    parameters are ignored. *)
Definition call (e : InstructionEval) (args : list number) (s : State)
  : State * bool :=
  let a := arg args in
  match e with
  | Emov1 => (mov1 (a 0%nat) (a 1%nat) s, false)
  | Emov2 => (mov2 (a 0%nat) (a 1%nat) s, false)
  | Emov3 => (mov3 (a 0%nat) (a 1%nat) s, false)
  | Emov4 => (mov4 (a 0%nat) (a 1%nat) s, false)
  | Eadd => (add (a 0%nat) (a 1%nat) (a 2%nat) s, false)
  | Esubt => (subt (a 0%nat) (a 1%nat) (a 2%nat) s, false)
  | Ejz => (jz (a 0%nat) (a 1%nat) s, false)
  | Ehalt => (halt s, true)
  | Emul => (mul (a 0%nat) (a 1%nat) (a 2%nat) s, false)
  | Eload => (load (a 0%nat) (a 1%nat) s, false)
  | Ereadm => (readm (a 0%nat) s, false)
  end.

End Machine.
Export Machine.

(** ** The parser *)

Module Parser.

(** The keys of [INSTRUCTIONS] ([keyof typeof INSTRUCTIONS]). *)
Inductive mnemonic : Type :=
| Kmov1 | Kmov2 | Kmov3 | Kmov4 | Kadd | Ksubt | Kjz | Khalt | Kreadm
| Kmul | Kload.

#[export] Instance mnemonic_eq_dec : EqDecision mnemonic.
Proof. solve_decision. Defined.

Definition all_mnemonics : list mnemonic :=
  [Kmov1; Kmov2; Kmov3; Kmov4; Kadd; Ksubt; Kjz; Khalt; Kreadm; Kmul;
   Kload].

(** The property name of a key. *)
Definition mnemonic_name (k : mnemonic) : jsstring :=
  match k with
  | Kmov1 => str "mov1" | Kmov2 => str "mov2" | Kmov3 => str "mov3"
  | Kmov4 => str "mov4" | Kadd => str "add" | Ksubt => str "subt"
  | Kjz => str "jz" | Khalt => str "halt" | Kreadm => str "readm"
  | Kmul => str "mul" | Kload => str "load"
  end.

(** [interface Instruction] *)
Record Instruction : Type := mkInstruction {
  args : list number;
  evaluate : InstructionEval;
  hex : jsstring
}.

(** [interface ParsingData]: both fields are optional. *)
Record ParsingData : Type := mkParsingData {
  registers : option nat;
  immediate : option bool
}.

(** What this program throws. *)
Inductive error : Type :=
| UnableToParseName (line : jsstring)
    (* Unable to parse instruction name for line: ${line} *)
| UnknownInstruction (instruction : jsstring)
    (* Unknown instruction: ${instruction} *)
| InvalidInstructionNumber (instructionNumber : number)
    (* Invalid instruction number: ${instructionNumber} *)
| UnableToParseArguments (instruction line : jsstring)
    (* Unable to parse arguments for "${instruction}": "${line}" *)
| UnableToConvert (decimal : number)
    (* Unable to convert ${decimal} to HEX as it is too big *)
| TypeError.
    (* thrown by the language: destructuring a value that is not
       iterable *)

Inductive result (A : Type) : Type :=
| Ok (a : A)
| Throw (e : error).
Arguments Ok {A} a.
Arguments Throw {A} e.

(** Sequencing: a [Throw] ends the computation. *)
#[export] Instance result_bind : MBind result :=
  fun A B (k : A -> result B) (r : result A) =>
    match r with
    | Ok a => k a
    | Throw e => Throw e
    end.

(** [range(n)] *)
Definition range (n : nat) : list nat := seq 0 n.

(** The two pieces [makeRegex] pushes: ['R([0-9]+)'] and ['([0-9]+)'].
    A regular expression is the list of its pieces; it stands for
    [^p1 +p2 +... +pn$], the pieces joined by [' +'] between the
    anchors. *)
Inductive piece : Type :=
| RegisterPiece
| ImmediatePiece.

Definition makeRegex (data : ParsingData) : list piece :=
  repeat RegisterPiece (default 0%nat (registers data))
  ++ (if default false (immediate data) then [ImmediatePiece] else []).

(** [[0-9]+] at the head of [s]: the digits captured and what follows.
    The quantifier is greedy, and giving digits back never helps: what
    follows a piece is a space or the end. *)
Definition match_digits (s : jsstring) : option (jsstring * jsstring) :=
  let '(ds, rest) := span is_digit s in
  if is_empty ds then None else Some (ds, rest).

Definition match_piece (p : piece) (s : jsstring)
  : option (jsstring * jsstring) :=
  match p with
  | RegisterPiece =>
      match s with
      | c :: t => if (c =? 82)%N then match_digits t else None
      | [] => None
      end
  | ImmediatePiece => match_digits s
  end.

(** [' +']: one or more spaces; what follows them is an [R] or a digit,
    so all of them are taken. *)
Definition match_spaces (s : jsstring) : option jsstring :=
  let '(sp, rest) := span is_space s in
  if is_empty sp then None else Some rest.

(** [s.match(regex)]: the capture groups ([match.slice(1)]) when the
    whole of [s] matches, [None] for [null]. *)
Fixpoint regex_match (regex : list piece) (s : jsstring)
  : option (list jsstring) :=
  match regex with
  | [] => if is_empty s then Some [] else None
  | p :: regex' =>
      match match_piece p s with
      | None => None
      | Some (g, rest) =>
          match regex' with
          | [] => if is_empty rest then Some [g] else None
          | _ :: _ =>
              match match_spaces rest with
              | None => None
              | Some rest' =>
                  match regex_match regex' rest' with
                  | None => None
                  | Some gs => Some (g :: gs)
                  end
              end
          end
      end
  end.

(** [line.match(COMMAND)] with [COMMAND = /^([0-9a-zA-Z]+)(.*?)$/]: the
    two groups.  The first group is the longest run of alphanumerics
    (giving some back leaves the same tail to the second group); the
    second must reach the end of the string, which [.] can do exactly
    when no line terminator is on the way. *)
Definition match_COMMAND (line : jsstring) : option (jsstring * jsstring) :=
  let '(name, rest) := span is_alnum line in
  if is_empty name then None
  else if forallb (fun c => negb (is_line_terminator c)) rest
       then Some (name, rest)
       else None.

(** The operand shape and the action of every key. *)
Definition PATTERNS (k : mnemonic) : ParsingData * InstructionEval :=
  match k with
  | Kmov1 => (mkParsingData (Some 1%nat) (Some true), Emov1)
  | Kmov2 => (mkParsingData (Some 1%nat) (Some true), Emov2)
  | Kmov3 => (mkParsingData (Some 2%nat) None, Emov3)
  | Kmov4 => (mkParsingData (Some 1%nat) (Some true), Emov4)
  | Kadd => (mkParsingData (Some 3%nat) None, Eadd)
  | Ksubt => (mkParsingData (Some 3%nat) None, Esubt)
  | Kjz => (mkParsingData (Some 1%nat) (Some true), Ejz)
  | Khalt => (mkParsingData None None, Ehalt)
  | Kmul => (mkParsingData (Some 3%nat) None, Emul)
  | Kload => (mkParsingData (Some 2%nat) None, Eload)
  | Kreadm => (mkParsingData None (Some true), Ereadm)
  end.

Definition INSTRUCTION_NUMBERS (k : mnemonic) : number :=
  match k with
  | Kmov1 => Fin 0
  | Kmov2 => Fin 1
  | Kmov3 => Fin 2
  | Kmov4 => Fin 3
  | Kadd => Fin 4
  | Ksubt => Fin 5
  | Kjz => Fin 6
  | Khalt => Fin 15
  | Kmul => Fin 8
  | Kload => Fin 10
  | Kreadm => Fin 7
  end.

(** The names every object literal inherits from [Object.prototype]. *)
Definition Object_prototype_names : list jsstring :=
  [str "constructor"; str "hasOwnProperty"; str "isPrototypeOf";
   str "propertyIsEnumerable"; str "toLocaleString"; str "toString";
   str "valueOf"; str "__proto__"; str "__defineGetter__";
   str "__defineSetter__"; str "__lookupGetter__";
   str "__lookupSetter__"].

(** What a property name finds in one of the two tables: an entry of
    the table, a member inherited from [Object.prototype], or
    nothing. *)
Inductive property (A : Type) : Type :=
| Own (a : A)
| Inherited
| Absent.
Arguments Own {A} a.
Arguments Inherited {A}.
Arguments Absent {A}.

Definition lookup (name : jsstring) : property mnemonic :=
  match List.find (fun k => bool_decide (mnemonic_name k = name))
          all_mnemonics with
  | Some k => Own k
  | None =>
      if bool_decide (name ∈ Object_prototype_names) then Inherited
      else Absent
  end.

(** [toHex(decimal, length)]; [16 ** length] is taken exactly, as it is
    for every length below 256 (the program calls it with 4). *)
Definition toHex (decimal : number) (length : nat) : result jsstring :=
  if js_ge decimal (16 ^ Z.of_nat length) then Throw (UnableToConvert decimal)
  else
    let hex := toString16 decimal in
    Ok (repeat 48%N (length - List.length hex) ++ hex).

(** [.filter((line) => line)]: an instruction is an object, hence
    truthy; [null] is dropped. *)
Fixpoint filter_truthy (rs : list (option Instruction))
  : list Instruction :=
  match rs with
  | [] => []
  | Some i :: rs' => i :: filter_truthy rs'
  | None :: rs' => filter_truthy rs'
  end.

Section WithTable.

(** The table of numeric codes, [INSTRUCTION_NUMBERS] in the program,
    kept abstract here so that what [parseLine] does with a
    different table can be stated. *)
Variable numbers_of : mnemonic -> number.

(** The word of a line whose operands matched: the code shifted to
    the top, every register at its field, the immediate added. *)
Definition encode (key : mnemonic) (registers : nat) (immediate : bool)
  (numbers : list number) : number :=
  let decimal := js_shl (numbers_of key) 12 in
  let decimal :=
    fold_left
      (fun decimal i =>
         js_add decimal
           (js_shl (nth i numbers NaN) (4 * (2 - Z.of_nat i))))
      (range registers) decimal in
  if immediate
  then js_add decimal (nth (List.length numbers - 1) numbers NaN)
  else decimal.

Definition parseLine_with (line : jsstring)
  : result (option Instruction) :=
  let line := trim (hd [] (split 35 line)) in
  if is_empty line then Ok None
  else
    match match_COMMAND line with
    | None => Throw (UnableToParseName line)
    | Some (instruction, rest) =>
        let line := trim rest in
        match lookup instruction with
        | Absent => Throw (UnknownInstruction instruction)
        | Inherited =>
            (* [instruction in PATTERNS] holds through the prototype.
               [INSTRUCTION_NUMBERS[key]] is then a built-in and not
               a number: [> 15] is false, [<< 12] is 0.
               [PATTERNS[key]] is the same built-in, and
               [const [parsingData, evaluate] = patterns] throws. *)
            Throw TypeError
        | Own key =>
            let instructionNumber := numbers_of key in
            if js_gt instructionNumber 15
            then Throw (InvalidInstructionNumber instructionNumber)
            else
              let '(parsingData, evaluate) := PATTERNS key in
              let registers := default 0%nat (registers parsingData) in
              let immediate := default false (immediate parsingData) in
              let reg := makeRegex parsingData in
              match regex_match reg line with
              | None => Throw (UnableToParseArguments instruction line)
              | Some groups =>
                  let numbers := List.map parseInt groups in
                  let decimal := encode key registers immediate numbers in
                  hex ← toHex decimal 4;
                  Ok (Some {| evaluate := evaluate; args := numbers;
                              hex := toUpperCase hex |})
              end
        end
    end.

(** [lines.map(parseLine)]: the first line that throws ends the
    call. *)
Fixpoint map_parseLine (lines : list jsstring)
  : result (list (option Instruction)) :=
  match lines with
  | [] => Ok []
  | l :: lines' =>
      r ← parseLine_with l;
      rs ← map_parseLine lines';
      Ok (r :: rs)
  end.

(** [text.split('\n').map(parseLine).filter((line) => line)] *)
Definition parse_with (text : jsstring) : result (list Instruction) :=
  rs ← map_parseLine (split 10 text);
  Ok (filter_truthy rs).

End WithTable.

Definition parseLine : jsstring -> result (option Instruction) :=
  parseLine_with INSTRUCTION_NUMBERS.

Definition parse : jsstring -> result (list Instruction) :=
  parse_with INSTRUCTION_NUMBERS.

End Parser.
Export Parser.

(** ** Vocabulary of the statements *)

Module Words.

(** The mnemonic token [parseLine] reads on a line ([match[1]]), and the
    operand text it matches against the operand pattern
    ([match[2].trim()]). *)
Definition mnemonic_token (line : jsstring) : option jsstring :=
  fst <$> match_COMMAND (trim (hd [] (split 35 line))).

Definition operand_text (line : jsstring) : option jsstring :=
  (fun m => trim (snd m)) <$> match_COMMAND (trim (hd [] (split 35 line))).

(** A line that is white space up to its end or up to its first [#]. *)
Fixpoint blank_or_comment (line : jsstring) : bool :=
  match line with
  | [] => true
  | c :: line' =>
      if (c =? 35)%N then true
      else is_trim_space c && blank_or_comment line'
  end.

(** The upper-case hexadecimal digit of [d], and the value of a digit. *)
Definition HEX_char (d : Z) : N :=
  if d <? 10 then Z.to_N (48 + d) else Z.to_N (55 + d).

Definition HEX_value (c : N) : option Z :=
  if is_digit c then Some (Z.of_N c - 48)
  else if ((65 <=? c) && (c <=? 70))%N then Some (Z.of_N c - 55)
  else None.

(** A 16-bit word as four upper-case hexadecimal digits. *)
Definition HEX_word (z : Z) : jsstring :=
  [HEX_char (z / 4096); HEX_char (z / 256 mod 16);
   HEX_char (z / 16 mod 16); HEX_char (z mod 16)].

(** The top digit of a hex field, decoded. *)
Definition top_digit (hex : jsstring) : option Z :=
  match hex with
  | c :: _ => HEX_value c
  | [] => None
  end.

Definition fits (width : Z) (v : number) : bool :=
  match v with
  | Fin z => (0 <=? z) && (z <? 2 ^ width)
  | _ => false
  end.

(** Every register operand fits its 4-bit field, and the immediate fits
    the bits the register fields leave free. *)
Definition operands_fit (data : ParsingData) (numbers : list number)
  : bool :=
  let r := default 0%nat (registers data) in
  forallb (fits 4) (firstn r numbers)
  && (if default false (immediate data)
      then fits (4 * (3 - Z.of_nat r))
             (nth (List.length numbers - 1) numbers NaN)
      else true).

(** [v] is zero: [0] or [-0]. *)
Definition zero_value (v : value) : Prop :=
  v = Num (Fin 0) \/ v = Num NZero.

(** The integer a number stands for (0 for what is not finite). *)
Definition integer (v : number) : Z :=
  match v with
  | Fin z => z
  | _ => 0
  end.

(** The operand bits of a word, as integer arithmetic: register [i] at
    [16 ^ (2 - i)], the immediate at the units. *)
Definition operand_sum (registers : nat) (immediate : bool)
  (numbers : list number) : Z :=
  fold_left
    (fun acc i => acc + integer (nth i numbers NaN) * 16 ^ (2 - Z.of_nat i))
    (range registers) 0
  + (if immediate
     then integer (nth (List.length numbers - 1) numbers NaN)
     else 0).

(** The table of the program with the code of [add] replaced by 16,
    which does not fit four bits. *)
Definition oversized_table (k : mnemonic) : number :=
  match k with
  | Kadd => Fin 16
  | _ => INSTRUCTION_NUMBERS k
  end.

(** The table of the program with the code of [mov2] replaced by 0, the
    code of [mov1]. *)
Definition duplicated_table (k : mnemonic) : number :=
  match k with
  | Kmov2 => Fin 0
  | _ => INSTRUCTION_NUMBERS k
  end.

(** The strings of [[0-9]+] and of [ +]. *)
Definition digits (g : jsstring) : Prop :=
  g <> [] /\ forallb is_digit g = true.

Definition spaces (sp : jsstring) : Prop :=
  sp <> [] /\ forallb is_space sp = true.

(** The text of one piece of a pattern, and what its group captures. *)
Inductive piece_text : piece -> jsstring -> jsstring -> Prop :=
| text_register g : digits g -> piece_text RegisterPiece (82%N :: g) g
| text_immediate g : digits g -> piece_text ImmediatePiece g g.

(** The strings a pattern of [makeRegex] stands for, read off the
    regular expression [^p1 +p2 +... +pn$], with the captures of its
    groups. *)
Inductive pattern_text : list piece -> jsstring -> list jsstring -> Prop :=
| text_empty : pattern_text [] [] []
| text_last p t g : piece_text p t g -> pattern_text [p] t [g]
| text_more p q regex t g sp s gs :
    piece_text p t g -> spaces sp -> pattern_text (q :: regex) s gs ->
    pattern_text (p :: q :: regex) (t ++ sp ++ s) (g :: gs).

(** [s] does not go on with a code unit of the class [p]. *)
Definition stops (p : N -> bool) (s : jsstring) : Prop :=
  match s with
  | [] => True
  | c :: _ => p c = false
  end.

(** What an operand can be: a non-negative integer, or infinity when the
    digits overflow the doubles. *)
Definition operand_value (v : number) : Prop :=
  v = PInf \/ exists m, v = Fin m /\ 0 <= m.

Definition integer_or_infinity (d : number) : Prop :=
  d = PInf \/ exists z, d = Fin z.

(** The number of parameters of an action. *)
Definition arity (e : InstructionEval) : nat :=
  match e with
  | Ehalt => 0
  | Ereadm => 1
  | Emov1 | Emov2 | Emov3 | Emov4 | Ejz | Eload => 2
  | Eadd | Esubt | Emul => 3
  end.

(** A program of four lines: an instruction, a comment, an empty line
    and an instruction with a comment. *)
Definition sample_program : jsstring :=
  str "add R1 R2 R3" ++ [10%N] ++ str "  # note" ++ [10%N] ++ [10%N]
  ++ str "halt # stop".

(** The state after a sequence of [readm] calls. *)
Definition readm_all (imms : list value) (s : State) : State :=
  fold_left (fun s imm => readm imm s) imms s.

End Words.
Export Words.

(** ** Vocabulary of the further statements *)

Module Readings.

(** The actions that assign to [REG], and those that assign to [MEM]. *)
Definition writes_REG (e : InstructionEval) : bool :=
  match e with
  | Emov1 | Eadd | Esubt | Emul | Eload => true
  | _ => false
  end.

Definition writes_MEM (e : InstructionEval) : bool :=
  match e with
  | Emov2 | Emov3 | Emov4 => true
  | _ => false
  end.

(** The actions that do not read what they write. *)
Definition repeats_harmlessly (e : InstructionEval) : bool :=
  match e with
  | Eadd | Esubt | Emul | Eload => false
  | _ => true
  end.

(** The integer index a subscript names, if it names one. *)
Definition slot_index (k : value) : option Z :=
  match to_key k with
  | Num (Fin i) => Some i
  | _ => None
  end.

(** What a subscript finds in [Array(size).fill(0)]. *)
Definition fresh_slot (size : Z) (k : value) : value :=
  match slot_index k with
  | Some i => if (0 <=? i) && (i <? size) then Num (Fin 0) else Undefined
  | None => Undefined
  end.

(** The value of a hexadecimal digit of either case. *)
Definition digit16 (c : N) : option Z :=
  if is_digit c then Some (Z.of_N c - 48)
  else if ((97 <=? c) && (c <=? 102))%N then Some (Z.of_N c - 87)
  else if ((65 <=? c) && (c <=? 70))%N then Some (Z.of_N c - 55)
  else None.

Definition hex_step (acc : option Z) (c : N) : option Z :=
  match acc, digit16 c with
  | Some a, Some d => Some (16 * a + d)
  | _, _ => None
  end.

(** The number a string of hexadecimal digits denotes. *)
Definition hex_value (h : jsstring) : option Z :=
  fold_left hex_step h (Some 0).

(** The initial state with 6 in register 2 and 7 in register 3. *)
Definition six_and_seven : State :=
  with_REG initial
    (set (set (REG initial) (Num (Fin 2)) (Num (Fin 6)))
       (Num (Fin 3)) (Num (Fin 7))).

(** A string without a line break. *)
Definition one_line (l : jsstring) : bool :=
  forallb (fun c => negb (c =? 10)%N) l.

(** The text whose lines are [lines]: the lines with a line break between
    each two. *)
Fixpoint join_lines (lines : list jsstring) : jsstring :=
  match lines with
  | [] => []
  | [l] => l
  | l :: lines' => l ++ 10%N :: join_lines lines'
  end.

End Readings.
Export Readings.

(** * Properties *)

(** ** The semantic actions *)

Section Actions.

Implicit Types (s : State) (r t a m k : value).

Lemma strict_ne_0_false v : strict_ne_0 v = false <-> zero_value v.
Proof.
  unfold zero_value. split.
  - destruct v as [|[| | | |[| |]]]; simpl; try discriminate; auto.
  - intros [-> | ->]; reflexivity.
Qed.

Lemma get_set_eq (arr : gmap value value) k v : get (set arr k v) k = v.
Proof. unfold get, set. by rewrite lookup_insert_eq. Qed.

Lemma get_set_ne (arr : gmap value value) k k' v :
  to_key k <> to_key k' -> get (set arr k v) k' = get arr k'.
Proof. intros H. unfold get, set. by rewrite lookup_insert_ne. Qed.

(** C4.  For every register index [r] and target [t]: when [REG[r]] is
    zero, [jz r t] changes nothing, the program counter in particular;
    when [REG[r]] is not zero, [jz r t] sets the program counter to [t]
    and leaves the rest of the state alone.  The jump fires on
    non-zero. *)
Theorem jz_jumps_on_nonzero r t s :
  (zero_value (get (REG s) r) -> jz r t s = s)
  /\ (~ zero_value (get (REG s) r) ->
      COUNTER (jz r t s) = t /\ jz r t s = with_COUNTER s t).
Proof.
  unfold jz. split; intros H.
  - apply strict_ne_0_false in H. by rewrite H.
  - destruct (strict_ne_0 (get (REG s) r)) eqn:E; [done|].
    apply strict_ne_0_false in E. contradiction.
Qed.

(** C5.  For every address [a] and immediate [m], [mov4 a m] writes [m]
    to memory slot [a], leaves every other memory slot as it was, and
    leaves the register file (and the output log and the program
    counter) unchanged. *)
Theorem mov4_writes_memory a m s :
  get (MEM (mov4 a m s)) a = m
  /\ (forall a', to_key a <> to_key a' ->
                 get (MEM (mov4 a m s)) a' = get (MEM s) a')
  /\ REG (mov4 a m s) = REG s
  /\ OUT (mov4 a m s) = OUT s
  /\ COUNTER (mov4 a m s) = COUNTER s.
Proof.
  unfold mov4; simpl. split_and!; try reflexivity.
  - apply get_set_eq.
  - intros a' H. by apply get_set_ne.
Qed.

Lemma OUT_readm m s : OUT (readm m s) = <[Num (Fin 0) := m]> (OUT s).
Proof. reflexivity. Qed.

Lemma OUT_readm_all ms m s :
  OUT (readm_all (ms ++ [m]) s) = <[Num (Fin 0) := m]> (OUT s).
Proof.
  unfold readm_all. rewrite fold_left_app. simpl.
  revert s. induction ms as [|m' ms IH]; intros s; simpl.
  - reflexivity.
  - rewrite IH. simpl. unfold set, TIME. simpl.
    by rewrite insert_insert_eq.
Qed.

Lemma OUT_call_other e args s k :
  k <> Num (Fin 0) -> OUT (call e args s).1 !! k = OUT s !! k.
Proof.
  intros H. destruct e; simpl; try reflexivity.
  - unfold jz. by destruct (strict_ne_0 _).
  - unfold set, TIME. simpl. by rewrite lookup_insert_ne.
Qed.

(** C10.  [readm m] writes [m] to index 0 of the output log, whatever
    the state; no action writes the log at another index; so after any
    sequence of [readm] calls the log is the one before them with the
    last value at index 0, and from the initial state it holds that
    value alone. *)
Theorem readm_overwrites_index_0 :
  TIME = Num (Fin 0)
  /\ (forall m s, get (OUT (readm m s)) (Num (Fin 0)) = m
                  /\ OUT (readm m s) = <[Num (Fin 0) := m]> (OUT s))
  /\ (forall e args s k,
        k <> Num (Fin 0) -> OUT (call e args s).1 !! k = OUT s !! k)
  /\ (forall ms m s,
        OUT (readm_all (ms ++ [m]) s) = <[Num (Fin 0) := m]> (OUT s))
  /\ (forall ms m,
        OUT (readm_all (ms ++ [m]) initial) = {[Num (Fin 0) := m]}).
Proof.
  split_and!.
  - reflexivity.
  - intros m s. split; [apply get_set_eq | apply OUT_readm].
  - apply OUT_call_other.
  - apply OUT_readm_all.
  - intros ms m. rewrite OUT_readm_all. reflexivity.
Qed.

Lemma jz_jumps_on_nonzero_witness :
  jz (Num (Fin 1)) (Num (Fin 7)) initial = initial
  /\ COUNTER (jz (Num (Fin 99)) (Num (Fin 7)) initial) = Num (Fin 7).
Proof.
  split.
  - apply (proj1 (jz_jumps_on_nonzero (Num (Fin 1)) (Num (Fin 7)) initial)).
    left. vm_compute. reflexivity.
  - apply (proj2 (jz_jumps_on_nonzero (Num (Fin 99)) (Num (Fin 7)) initial)).
    intros [H | H]; vm_compute in H; discriminate H.
Defined.

Lemma mov4_writes_memory_witness :
  get (MEM (mov4 (Num (Fin 3)) (Num (Fin 9)) initial)) (Num (Fin 3))
  = Num (Fin 9)
  /\ get (MEM (mov4 (Num (Fin 3)) (Num (Fin 9)) initial)) (Num (Fin 4))
     = get (MEM initial) (Num (Fin 4)).
Proof.
  split.
  - apply (mov4_writes_memory (Num (Fin 3)) (Num (Fin 9)) initial).
  - apply (proj1 (proj2 (mov4_writes_memory (Num (Fin 3)) (Num (Fin 9))
                           initial))).
    vm_compute. discriminate.
Defined.

Lemma readm_overwrites_index_0_witness :
  OUT (readm_all [Num (Fin 5); Num (Fin 6); Num (Fin 7)] initial)
  = {[Num (Fin 0) := Num (Fin 7)]}
  /\ OUT (call Ereadm [Fin 5] initial).1 !! Num (Fin 1)
     = OUT initial !! Num (Fin 1).
Proof.
  split.
  - apply (proj2 (proj2 (proj2 (proj2 readm_overwrites_index_0)))
             [Num (Fin 5); Num (Fin 6)] (Num (Fin 7))).
  - apply (proj1 (proj2 (proj2 readm_overwrites_index_0))
             Ereadm [Fin 5] initial (Num (Fin 1))).
    discriminate.
Defined.

End Actions.

(** ** Numbers and hexadecimal rendering *)

Section Rendering.

Lemma wrap32_small z : - 2 ^ 31 <= z < 2 ^ 31 -> wrap32 z = z.
Proof.
  intros H. unfold wrap32.
  destruct (Z.ltb_spec (z mod 2 ^ 32) (2 ^ 31)) as [L | L];
    revert L; change (2 ^ 32) with 4294967296 in *;
    change (2 ^ 31) with 2147483648 in *; intros L;
    Z.div_mod_to_equations; lia.
Qed.

Lemma wrap32_range z : - 2 ^ 31 <= wrap32 z < 2 ^ 31.
Proof.
  unfold wrap32.
  destruct (Z.ltb_spec (z mod 2 ^ 32) (2 ^ 31)) as [L | L];
    revert L; change (2 ^ 32) with 4294967296 in *;
    change (2 ^ 31) with 2147483648 in *; intros L;
    Z.div_mod_to_equations; lia.
Qed.

Lemma round_mag_small n : 0 <= n < 2 ^ 53 -> round_mag n = Some n.
Proof.
  intros [H0 H1]. unfold round_mag.
  assert (Z.log2 n < 53) as L.
  { destruct (Z.eq_dec n 0) as [-> | Hn]; [reflexivity|].
    apply Z.log2_lt_pow2; lia. }
  apply Z.ltb_lt in L. by rewrite L.
Qed.

Lemma of_Z_small z : - 2 ^ 53 < z < 2 ^ 53 -> of_Z z = Fin z.
Proof.
  intros H. unfold of_Z. destruct (Z.ltb_spec z 0).
  - rewrite round_mag_small by lia. f_equal. lia.
  - rewrite round_mag_small by lia. reflexivity.
Qed.

Lemma js_add_small x y :
  - 2 ^ 53 < x + y < 2 ^ 53 -> js_add (Fin x) (Fin y) = Fin (x + y).
Proof.
  intros H. simpl. destruct (Z.eqb_spec (x + y) 0) as [-> | _];
    [reflexivity | by apply of_Z_small].
Qed.

Lemma js_shl_small z k :
  0 <= k < 32 -> 0 <= z -> z * 2 ^ k < 2 ^ 31 ->
  js_shl (Fin z) k = Fin (z * 2 ^ k).
Proof.
  intros Hk Hz Hb. unfold js_shl, ToInt32.
  rewrite Z.mod_small by lia.
  assert (0 < 2 ^ k) by (apply Z.pow_pos_nonneg; lia).
  rewrite (wrap32_small z) by nia.
  rewrite Z.shiftl_mul_pow2 by lia.
  rewrite wrap32_small by nia. reflexivity.
Qed.

Lemma hex_digit_cases d :
  0 <= d < 16 ->
  d = 0 \/ d = 1 \/ d = 2 \/ d = 3 \/ d = 4 \/ d = 5 \/ d = 6 \/ d = 7
  \/ d = 8 \/ d = 9 \/ d = 10 \/ d = 11 \/ d = 12 \/ d = 13 \/ d = 14
  \/ d = 15.
Proof. lia. Qed.

Lemma toUpperCase_hex_char d :
  0 <= d < 16 -> toUpperCase [hex_char d] = [HEX_char d].
Proof.
  intros H. apply hex_digit_cases in H.
  repeat (destruct H as [-> | H]; [reflexivity|]). by subst.
Qed.

Lemma HEX_value_char d : 0 <= d < 16 -> HEX_value (HEX_char d) = Some d.
Proof.
  intros H. apply hex_digit_cases in H.
  repeat (destruct H as [-> | H]; [reflexivity|]). by subst.
Qed.

Lemma toUpperCase_app s t :
  toUpperCase (s ++ t) = toUpperCase s ++ toUpperCase t.
Proof. apply List.map_app. Qed.

Local Ltac digits_eq :=
  repeat (apply (f_equal2 cons);
          [apply (f_equal HEX_char); Z.div_mod_to_equations; lia|]);
  reflexivity.

(** The digits of a 16-bit word, whatever fuel suffices for them. *)
Lemma hex_digits_aux_word fuel z :
  0 <= z < 65536 -> Z.log2 z < Z.of_nat fuel ->
  let ds := hex_digits_aux fuel z [] in
  toUpperCase (repeat 48%N (4 - List.length ds) ++ ds) = HEX_word z.
Proof.
  intros Hz Hf.
  assert (forall k, 0 <= k -> 2 ^ k <= z -> k <= Z.log2 z) as Hlog.
  { intros k Hk Hle. apply Z.log2_le_pow2; [|done].
    assert (0 < 2 ^ k) by (apply Z.pow_pos_nonneg; lia). lia. }
  assert (forall d, 0 <= d < 16 ->
            (if is_lower (hex_char d) then (hex_char d - 32)%N
             else hex_char d) = HEX_char d) as Hup.
  { intros d Hd. pose proof (toUpperCase_hex_char d Hd) as E.
    by injection E. }
  assert (48%N = HEX_char 0) as H48 by reflexivity.
  unfold HEX_word. pose proof (Z.log2_nonneg z) as Hnn.
  destruct fuel as [|f1]; [lia|]. simpl.
  destruct (Z.eqb_spec (z / 16) 0) as [E1 | E1].
  { simpl. rewrite Hup by (Z.div_mod_to_equations; lia).
    rewrite H48. digits_eq. }
  destruct f1 as [|f2].
  { specialize (Hlog 4). change (2 ^ 4) with 16 in Hlog.
    assert (16 <= z) by (Z.div_mod_to_equations; lia). lia. }
  simpl. destruct (Z.eqb_spec (z / 16 / 16) 0) as [E2 | E2].
  { simpl. rewrite !Hup by (Z.div_mod_to_equations; lia).
    rewrite H48. digits_eq. }
  destruct f2 as [|f3].
  { specialize (Hlog 8). change (2 ^ 8) with 256 in Hlog.
    assert (256 <= z) by (Z.div_mod_to_equations; lia). lia. }
  simpl. destruct (Z.eqb_spec (z / 16 / 16 / 16) 0) as [E3 | E3].
  { simpl. rewrite !Hup by (Z.div_mod_to_equations; lia).
    rewrite H48. digits_eq. }
  destruct f3 as [|f4].
  { specialize (Hlog 12). change (2 ^ 12) with 4096 in Hlog.
    assert (4096 <= z) by (Z.div_mod_to_equations; lia). lia. }
  simpl. destruct (Z.eqb_spec (z / 16 / 16 / 16 / 16) 0) as [E4 | E4].
  { simpl. rewrite !Hup by (Z.div_mod_to_equations; lia).
    digits_eq. }
  exfalso. apply E4. Z.div_mod_to_equations. lia.
Qed.

(** [toHex(z, 4).toUpperCase()] of a 16-bit word is its four digits. *)
Lemma toHex_word z :
  0 <= z < 65536 ->
  exists h, toHex (Fin z) 4 = Ok h /\ toUpperCase h = HEX_word z.
Proof.
  intros Hz. unfold toHex.
  change (16 ^ Z.of_nat 4) with 65536. simpl js_ge.
  destruct (Z.geb_spec z 65536) as [|_]; [lia|].
  eexists. split; [reflexivity|].
  simpl. destruct (Z.ltb_spec z 0) as [|_]; [lia|].
  apply hex_digits_aux_word; [done|].
  pose proof (Z.log2_nonneg z). lia.
Qed.

End Rendering.

(** ** Lines *)

Section Lines.

Variable numbers_of : mnemonic -> number.

Lemma drop_while_nil p s : drop_while p s = [] <-> forallb p s = true.
Proof.
  induction s as [|c s IH]; simpl; [done|].
  destruct (p c); simpl; [exact IH | done].
Qed.

Lemma drop_while_head p s c s' : drop_while p s = c :: s' -> p c = false.
Proof.
  induction s as [|d s IH]; simpl; [done|].
  destruct (p d) eqn:E; [exact IH|]. by intros [= -> _].
Qed.

Lemma forallb_drop_while p s :
  forallb p (drop_while p s) = true -> forallb p s = true.
Proof.
  intros H. apply drop_while_nil.
  destruct (drop_while p s) as [|c s'] eqn:E; [done|].
  apply drop_while_head in E. simpl in H. by rewrite E in H.
Qed.

Lemma forallb_rev p (s : jsstring) : forallb p (rev s) = forallb p s.
Proof.
  induction s as [|c s IH]; simpl; [done|].
  rewrite forallb_app, IH. simpl. rewrite andb_true_r. apply andb_comm.
Qed.

(** A string trims to nothing exactly when it is all white space. *)
Lemma trim_empty s :
  is_empty (trim s) = forallb is_trim_space s.
Proof.
  unfold trim. destruct (forallb is_trim_space s) eqn:E.
  - apply drop_while_nil in E. by rewrite E.
  - destruct (rev _) as [|c t] eqn:R; [|done]. exfalso.
    apply (f_equal (@rev N)) in R. rewrite rev_involutive in R. simpl in R.
    apply drop_while_nil in R. rewrite forallb_rev in R.
    apply forallb_drop_while in R. congruence.
Qed.

(** What precedes the first [#] is white space exactly on the blank and
    the comment-only lines. *)
Lemma before_hash_blank line :
  forallb is_trim_space (hd [] (split 35 line)) = blank_or_comment line.
Proof.
  induction line as [|c line IH]; simpl; [done|].
  destruct (c =? 35)%N; [done|].
  destruct (split 35 line) as [|w ws]; simpl in *;
    rewrite <- IH; by rewrite ?andb_true_r.
Qed.

Lemma stripped_empty line :
  is_empty (trim (hd [] (split 35 line))) = blank_or_comment line.
Proof. by rewrite trim_empty, before_hash_blank. Qed.

(** What a successful parse went through. *)
Lemma parseLine_with_Some line ins :
  parseLine_with numbers_of line = Ok (Some ins) ->
  exists name rest key groups h,
    blank_or_comment line = false
    /\ match_COMMAND (trim (hd [] (split 35 line))) = Some (name, rest)
    /\ lookup name = Own key
    /\ js_gt (numbers_of key) 15 = false
    /\ regex_match (makeRegex (PATTERNS key).1) (trim rest) = Some groups
    /\ toHex (encode numbers_of key
                (default 0%nat (registers (PATTERNS key).1))
                (default false (immediate (PATTERNS key).1))
                (List.map parseInt groups)) 4 = Ok h
    /\ ins = {| args := List.map parseInt groups;
                evaluate := (PATTERNS key).2;
                hex := toUpperCase h |}.
Proof.
  unfold parseLine_with. rewrite stripped_empty.
  destruct (blank_or_comment line); [done|].
  destruct (match_COMMAND _) as [[name rest]|]; [|done].
  destruct (lookup name) as [key| |] eqn:EL; [|done|done].
  destruct (js_gt _ 15) eqn:EG; [done|].
  destruct (PATTERNS key) as [data ev] eqn:EP. simpl.
  destruct (regex_match _ _) as [groups|] eqn:ER; [|done].
  destruct (toHex _ 4) as [h|e] eqn:EH; simpl; [|done].
  intros [= <-]. exists name, rest, key, groups, h.
  rewrite EP. simpl. by split_and!.
Qed.

(** A line parses to [null] exactly when it is blank or a comment. *)
Lemma parseLine_with_None line :
  parseLine_with numbers_of line = Ok None <-> blank_or_comment line = true.
Proof.
  unfold parseLine_with. rewrite stripped_empty.
  destruct (blank_or_comment line); [done|]. split; [|done].
  destruct (match_COMMAND _) as [[name rest]|]; [|done].
  destruct (lookup name) as [key| |]; [|done|done].
  destruct (js_gt _ 15); [done|].
  destruct (PATTERNS key) as [data ev].
  destruct (regex_match _ _) as [groups|]; [|done].
  by destruct (toHex _ 4).
Qed.

Lemma map_parseLine_Ok lines rs :
  map_parseLine numbers_of lines = Ok rs <->
  List.map (parseLine_with numbers_of) lines = List.map Ok rs.
Proof.
  revert rs. induction lines as [|l lines IH]; intros rs; simpl.
  - split; [by intros [= <-] | by destruct rs].
  - destruct (parseLine_with numbers_of l) as [r|e]; simpl.
    + destruct (map_parseLine numbers_of lines) as [rs'|e]; simpl.
      * split.
        -- intros [= <-]. simpl. f_equal. by apply IH.
        -- destruct rs as [|r0 rs0]; [done|]. simpl. intros [= -> H].
           apply IH in H. by injection H as ->.
      * split; [done|]. destruct rs as [|r0 rs0]; [done|].
        simpl. intros [= _ H]. by apply IH in H.
    + split; [done|]. by destruct rs.
Qed.

Lemma map_parseLine_total lines :
  (forall l, In l lines -> exists r, parseLine_with numbers_of l = Ok r) ->
  exists rs, map_parseLine numbers_of lines = Ok rs.
Proof.
  induction lines as [|l lines IH]; intros H; simpl; [by eexists|].
  destruct (H l) as [r ->]; [by left|].
  destruct IH as [rs ->]; [intros; apply H; by right|].
  by eexists.
Qed.

Lemma filter_truthy_lines lines rs :
  List.map (parseLine_with numbers_of) lines = List.map Ok rs ->
  List.map (fun i => Ok (Some i)) (filter_truthy rs)
  = List.map (parseLine_with numbers_of)
      (List.filter (fun l => negb (blank_or_comment l)) lines).
Proof.
  revert rs. induction lines as [|l lines IH]; intros [|r rs]; simpl;
    try done.
  intros [= Hl H]. specialize (IH _ H).
  destruct r as [i|].
  - destruct (blank_or_comment l) eqn:B; simpl.
    + apply parseLine_with_None in B. congruence.
    + by rewrite Hl, IH.
  - apply parseLine_with_None in Hl. by rewrite Hl.
Qed.

End Lines.

(** The first line that throws makes [parse] throw. *)
Lemma parse_throws text :
  (exists l e, In l (split 10 text) /\ parseLine l = Throw e) ->
  exists e, parse text = Throw e.
Proof.
  intros (l & e & Hin & Hl). unfold parse, parse_with.
  destruct (map_parseLine _ _) as [rs|e'] eqn:E; [|by eexists].
  apply map_parseLine_Ok in E.
  apply (in_map (parseLine_with INSTRUCTION_NUMBERS)) in Hin.
  rewrite E in Hin. apply in_map_iff in Hin as (r & Hr & _).
  unfold parseLine in Hl. congruence.
Qed.

(** ** Patterns *)

Section Patterns.

Lemma span_spec p s a b :
  span p s = (a, b) -> s = a ++ b /\ forallb p a = true /\ stops p b.
Proof.
  revert a b. induction s as [|c s IH]; intros a b; simpl.
  - by intros [= <- <-].
  - destruct (p c) eqn:E.
    + destruct (span p s) as [a' b']. intros [= <- <-].
      destruct (IH _ _ eq_refl) as (-> & Ha & Hb). simpl. by rewrite E.
    + by intros [= <- <-].
Qed.

Lemma span_app p a b :
  forallb p a = true -> stops p b -> span p (a ++ b) = (a, b).
Proof.
  intros Ha Hb. induction a as [|c a IH]; simpl in *.
  - destruct b as [|c b]; [done|]. simpl in *. by rewrite Hb.
  - apply andb_true_iff in Ha as [-> Ha]. by rewrite (IH Ha).
Qed.

Lemma is_empty_nil (s : jsstring) : is_empty s = true <-> s = [].
Proof. by destruct s. Qed.

Lemma is_empty_false (s : jsstring) : is_empty s = false <-> s <> [].
Proof. by destruct s. Qed.

Lemma match_digits_spec s g rest :
  match_digits s = Some (g, rest) <->
  s = g ++ rest /\ digits g /\ stops is_digit rest.
Proof.
  unfold match_digits, digits. split.
  - destruct (span is_digit s) as [a b] eqn:E.
    apply span_spec in E as (-> & Ha & Hb).
    destruct (is_empty a) eqn:Ea; [done|]. intros [= <- <-].
    by apply is_empty_false in Ea.
  - intros (-> & [Hn Hg] & Hr). rewrite (span_app _ _ _ Hg Hr).
    apply is_empty_false in Hn. by rewrite Hn.
Qed.

Lemma match_spaces_spec s rest :
  match_spaces s = Some rest <->
  exists sp, s = sp ++ rest /\ spaces sp /\ stops is_space rest.
Proof.
  unfold match_spaces, spaces. split.
  - destruct (span is_space s) as [a b] eqn:E.
    apply span_spec in E as (-> & Ha & Hb).
    destruct (is_empty a) eqn:Ea; [done|]. intros [= <-].
    exists a. by apply is_empty_false in Ea.
  - intros (sp & -> & [Hn Hg] & Hr). rewrite (span_app _ _ _ Hg Hr).
    apply is_empty_false in Hn. by rewrite Hn.
Qed.

Lemma match_piece_spec p s g rest :
  match_piece p s = Some (g, rest) <->
  exists t, s = t ++ rest /\ piece_text p t g /\ stops is_digit rest.
Proof.
  destruct p; simpl.
  - split.
    + destruct s as [|c s]; [done|].
      destruct (N.eqb_spec c 82) as [-> | Hc]; [|done].
      intros H. apply match_digits_spec in H as (-> & Hg & Hr).
      exists (82%N :: g). split_and!; [done | by constructor | done].
    + intros (t & -> & Ht & Hr). inversion Ht; subst. simpl.
      by apply match_digits_spec.
  - rewrite match_digits_spec. split.
    + intros (-> & Hg & Hr). exists g. split_and!; [done | by constructor | done].
    + intros (t & -> & Ht & Hr). by inversion Ht; subst.
Qed.

(** A digit is not a space, and the text of a piece starts with an [R]
    or a digit. *)
Lemma spaces_stop_digits sp s : spaces sp -> stops is_digit (sp ++ s).
Proof.
  intros [Hn Hsp]. destruct sp as [|c sp]; [done|]. simpl in *.
  apply andb_true_iff in Hsp as [Hc _]. unfold is_space in Hc.
  apply N.eqb_eq in Hc. by subst.
Qed.

Lemma digits_stop_spaces g s : digits g -> stops is_space (g ++ s).
Proof.
  intros [Hn Hg]. destruct g as [|c g]; [done|]. simpl in *.
  apply andb_true_iff in Hg as [Hc _]. unfold is_space, is_digit in *.
  apply andb_true_iff in Hc as [H1 H2].
  apply N.leb_le in H1. apply N.eqb_neq. lia.
Qed.

Lemma piece_text_stops_spaces p t g s :
  piece_text p t g -> stops is_space (t ++ s).
Proof.
  intros []; [done | by apply digits_stop_spaces].
Qed.

Lemma pattern_text_stops_spaces q regex s gs :
  pattern_text (q :: regex) s gs -> stops is_space s.
Proof.
  inversion 1; subst.
  - rewrite <- (app_nil_r s). by eapply piece_text_stops_spaces.
  - by eapply piece_text_stops_spaces.
Qed.

Lemma regex_match_more p q regex s :
  regex_match (p :: q :: regex) s
  = match match_piece p s with
    | None => None
    | Some (g, rest) =>
        match match_spaces rest with
        | None => None
        | Some rest' =>
            match regex_match (q :: regex) rest' with
            | None => None
            | Some gs => Some (g :: gs)
            end
        end
    end.
Proof. reflexivity. Qed.

(** [regex_match] accepts exactly the strings of the pattern, and
    returns the captures of its groups. *)
Lemma regex_match_spec regex s gs :
  regex_match regex s = Some gs <-> pattern_text regex s gs.
Proof.
  split.
  - revert s gs. induction regex as [|p regex IH]; intros s gs; simpl.
    + destruct (is_empty s) eqn:E; [|done]. intros [= <-].
      apply is_empty_nil in E as ->. constructor.
    + destruct (match_piece p s) as [[g rest]|] eqn:Ep; [|done].
      apply match_piece_spec in Ep as (t & -> & Ht & Hr).
      destruct regex as [|q regex].
      * destruct (is_empty rest) eqn:E; [|done]. intros [= <-].
        apply is_empty_nil in E as ->. rewrite app_nil_r. by constructor.
      * destruct (match_spaces rest) as [rest'|] eqn:Es; [|done].
        apply match_spaces_spec in Es as (sp & -> & Hsp & Hs).
        destruct (regex_match (q :: regex) rest') as [gs'|] eqn:Em; [|done].
        intros [= <-]. constructor; [done | done | by apply IH].
  - induction 1 as [|p t g Ht|p q regex t g sp s gs Ht Hsp Hs IH].
    + reflexivity.
    + simpl. replace (match_piece p t) with (Some (g, @nil N)); [done|].
      symmetry. apply match_piece_spec. exists t.
      by rewrite app_nil_r.
    + rewrite regex_match_more.
      replace (match_piece p (t ++ sp ++ s)) with (Some (g, sp ++ s)).
      2:{ symmetry. apply match_piece_spec. exists t.
          split_and!; [done | done | by apply spaces_stop_digits]. }
      replace (match_spaces (sp ++ s)) with (Some s).
      2:{ symmetry. apply match_spaces_spec. exists sp.
          split_and!; [done | done |].
          by eapply pattern_text_stops_spaces. }
      by rewrite IH.
Qed.

(** [match_COMMAND] splits a line into its longest alphanumeric prefix,
    which must not be empty, and a rest free of line terminators. *)
Lemma match_COMMAND_spec line name rest :
  match_COMMAND line = Some (name, rest) <->
  line = name ++ rest /\ name <> []
  /\ forallb is_alnum name = true /\ stops is_alnum rest
  /\ forallb (fun c => negb (is_line_terminator c)) rest = true.
Proof.
  unfold match_COMMAND. split.
  - destruct (span is_alnum line) as [a b] eqn:E.
    apply span_spec in E as (-> & Ha & Hb).
    destruct (is_empty a) eqn:Ea; [done|].
    destruct (forallb _ b) eqn:Et; [|done]. intros [= <- <-].
    by apply is_empty_false in Ea.
  - intros (-> & Hn & Ha & Hs & Ht). rewrite (span_app _ _ _ Ha Hs), Ht.
    apply is_empty_false in Hn. by rewrite Hn.
Qed.

End Patterns.

(** ** One line *)

Section OneLine.

Variable numbers_of : mnemonic -> number.

Lemma lookup_Own name key : lookup name = Own key -> mnemonic_name key = name.
Proof.
  unfold lookup. destruct (List.find _ _) as [k|] eqn:E.
  - intros [= <-]. apply List.find_some in E as [_ E].
    by apply bool_decide_eq_true in E.
  - by destruct (bool_decide _).
Qed.

Lemma lookup_mnemonic_name key : lookup (mnemonic_name key) = Own key.
Proof. by destruct key. Qed.

Lemma lookup_not_Own name :
  (forall k, mnemonic_name k <> name) ->
  lookup name = if bool_decide (name ∈ Object_prototype_names)
                then Inherited else Absent.
Proof.
  intros H. unfold lookup. destruct (List.find _ _) as [k|] eqn:E; [|done].
  apply List.find_some in E as [_ E]. apply bool_decide_eq_true in E.
  by destruct (H k).
Qed.

Lemma token_text line name :
  mnemonic_token line = Some name ->
  exists rest,
    match_COMMAND (trim (hd [] (split 35 line))) = Some (name, rest)
    /\ operand_text line = Some (trim rest)
    /\ blank_or_comment line = false.
Proof.
  unfold mnemonic_token, operand_text. rewrite <- stripped_empty.
  destruct (trim (hd [] (split 35 line))) as [|c l] eqn:E; [done|].
  destruct (match_COMMAND (c :: l)) as [[n r]|]; [|done].
  simpl. intros [= ->]. by exists r.
Qed.

(** [parseLine] on a line whose mnemonic is a key of the tables. *)
Lemma parseLine_with_Own line name key :
  mnemonic_token line = Some name -> lookup name = Own key ->
  exists text,
    operand_text line = Some text
    /\ parseLine_with numbers_of line
       = if js_gt (numbers_of key) 15
         then Throw (InvalidInstructionNumber (numbers_of key))
         else
           match regex_match (makeRegex (PATTERNS key).1) text with
           | None => Throw (UnableToParseArguments name text)
           | Some groups =>
               h ← toHex
                     (encode numbers_of key
                        (default 0%nat (registers (PATTERNS key).1))
                        (default false (immediate (PATTERNS key).1))
                        (List.map parseInt groups)) 4;
               Ok (Some {| args := List.map parseInt groups;
                           evaluate := (PATTERNS key).2;
                           hex := toUpperCase h |})
           end.
Proof.
  intros Ht Hl. destruct (token_text _ _ Ht) as (rest & Hm & Ho & Hb).
  exists (trim rest). split; [done|].
  unfold parseLine_with. rewrite stripped_empty, Hb, Hm, Hl.
  by destruct (PATTERNS key).
Qed.

(** [parseLine] on a line whose mnemonic is not a key of the tables. *)
Lemma parseLine_with_not_Own line name :
  mnemonic_token line = Some name ->
  (forall k, mnemonic_name k <> name) ->
  parseLine_with numbers_of line
  = if bool_decide (name ∈ Object_prototype_names)
    then Throw TypeError else Throw (UnknownInstruction name).
Proof.
  intros Ht Hn. destruct (token_text _ _ Ht) as (rest & Hm & _ & Hb).
  unfold parseLine_with.
  rewrite stripped_empty, Hb, Hm, (lookup_not_Own _ Hn).
  by destruct (bool_decide _).
Qed.

Lemma regex_match_length regex s groups :
  regex_match regex s = Some groups ->
  List.length groups = List.length regex.
Proof.
  revert s groups. induction regex as [|p regex IH]; intros s groups; simpl.
  - destruct (is_empty s); [by intros [= <-] | done].
  - destruct (match_piece p s) as [[g rest]|]; [|done].
    destruct regex as [|q regex].
    + destruct (is_empty rest); [by intros [= <-] | done].
    + destruct (match_spaces rest) as [rest'|]; [|done].
      destruct (regex_match (q :: regex) rest') as [gs|] eqn:E; [|done].
      intros [= <-]. simpl. f_equal. exact (IH _ _ E).
Qed.

End OneLine.

(** An unknown mnemonic never yields a value: the line throws, and what
    it throws is the unknown-instruction error naming the mnemonic unless
    the mnemonic is a name every object inherits. *)
Lemma unknown_mnemonic_throws line name :
  mnemonic_token line = Some name ->
  (forall k, mnemonic_name k <> name) ->
  (exists e, parseLine line = Throw e)
  /\ (name ∉ Object_prototype_names ->
      parseLine line = Throw (UnknownInstruction name)).
Proof.
  intros Ht Hn. unfold parseLine.
  rewrite (parseLine_with_not_Own _ _ _ Ht Hn).
  destruct (bool_decide_reflect (name ∈ Object_prototype_names)).
  - split; [by eexists | done].
  - split; [by eexists | done].
Qed.

(** Operand text that does not match the shape of the line's opcode
    throws the operand error, naming the mnemonic and the text. *)
Lemma operand_mismatch_throws line name key text :
  mnemonic_token line = Some name -> lookup name = Own key ->
  operand_text line = Some text ->
  regex_match (makeRegex (PATTERNS key).1) text = None ->
  parseLine line = Throw (UnableToParseArguments name text).
Proof.
  intros Ht Hl Ho Hr. unfold parseLine.
  destruct (parseLine_with_Own INSTRUCTION_NUMBERS _ _ _ Ht Hl)
    as (text' & Ho' & ->).
  assert (text' = text) as -> by congruence.
  rewrite Hr. by destruct key.
Qed.

(** C7.  The mnemonic [toString] is not in the opcode table, yet the line
    [toString] does not raise the unknown-instruction error: the
    membership test [instruction in PATTERNS] finds the inherited
    [Object.prototype.toString], and the line fails later with a
    TypeError that names nothing. *)
Theorem inherited_name_passes_the_table_test :
  mnemonic_token (str "toString") = Some (str "toString")
  /\ (forall k, mnemonic_name k <> str "toString")
  /\ parseLine (str "toString") = Throw TypeError
  /\ parseLine (str "toString") <> Throw (UnknownInstruction (str "toString")).
Proof.
  split_and!; [done | by intros [] | done | done].
Qed.

(** C2.  [add R1 R2 R3] encodes to [4123], [subt R0 R1 R2] to [5012],
    [halt] to [F000] and [mul R1 R2 R3] to [8123]. *)
Theorem documented_encodings :
  parseLine (str "add R1 R2 R3")
  = Ok (Some {| args := [Fin 1; Fin 2; Fin 3]; evaluate := Eadd;
                hex := str "4123" |})
  /\ parseLine (str "subt R0 R1 R2")
     = Ok (Some {| args := [Fin 0; Fin 1; Fin 2]; evaluate := Esubt;
                   hex := str "5012" |})
  /\ parseLine (str "halt")
     = Ok (Some {| args := []; evaluate := Ehalt; hex := str "F000" |})
  /\ parseLine (str "mul R1 R2 R3")
     = Ok (Some {| args := [Fin 1; Fin 2; Fin 3]; evaluate := Emul;
                   hex := str "8123" |}).
Proof. split_and!; vm_compute; reflexivity. Qed.

(** C6.  Operand values are not checked against their 4-bit fields.  The
    line [mov3 R16 R0] parses without error, and its register value 16
    carries into the opcode field: the word is [3000], the word of
    [mov4 R0 0], although the code of [mov3] is 2.  Likewise
    [mov3 R0 R16] carries into the field of the first register and gives
    the word of [mov3 R1 R0]. *)
Theorem oversized_operand_corrupts_the_word :
  parseLine (str "mov3 R16 R0")
  = Ok (Some {| args := [Fin 16; Fin 0]; evaluate := Emov3;
                hex := str "3000" |})
  /\ INSTRUCTION_NUMBERS Kmov3 = Fin 2
  /\ top_digit (str "3000") = Some 3
  /\ parseLine (str "mov4 R0 0")
     = Ok (Some {| args := [Fin 0; Fin 0]; evaluate := Emov4;
                   hex := str "3000" |})
  /\ parseLine (str "mov3 R0 R16")
     = Ok (Some {| args := [Fin 0; Fin 16]; evaluate := Emov3;
                   hex := str "2100" |})
  /\ parseLine (str "mov3 R1 R0")
     = Ok (Some {| args := [Fin 1; Fin 0]; evaluate := Emov3;
                   hex := str "2100" |}).
Proof. split_and!; vm_compute; reflexivity. Qed.

(** C1.  The line [add R8388608 R0 R0] parses successfully, but its hex
    field is not four hexadecimal digits: the 32-bit shift of the first
    register turns negative, [toHex] only rejects values that are too
    large, and the field is the nine characters [-7FFFC000]. *)
Theorem negative_word_escapes_toHex :
  parseLine (str "add R8388608 R0 R0")
  = Ok (Some {| args := [Fin 8388608; Fin 0; Fin 0]; evaluate := Eadd;
                hex := str "-7FFFC000" |})
  /\ encode INSTRUCTION_NUMBERS Kadd 3 false [Fin 8388608; Fin 0; Fin 0]
     = Fin (-2147467264)
  /\ List.length (str "-7FFFC000") = 9%nat.
Proof. split_and!; vm_compute; reflexivity. Qed.

(** ** The table of numeric codes *)

Lemma INSTRUCTION_NUMBERS_4_bits k :
  exists c, INSTRUCTION_NUMBERS k = Fin c /\ 0 <= c <= 15.
Proof. destruct k; eexists; (split; [reflexivity | lia]). Qed.

Lemma INSTRUCTION_NUMBERS_unique k1 k2 :
  INSTRUCTION_NUMBERS k1 = INSTRUCTION_NUMBERS k2 -> k1 = k2.
Proof. by destruct k1, k2. Qed.

(** [parseLine] reads the table at the key of its line and nowhere
    else. *)
Lemma parseLine_with_ext tbl tbl' line :
  (forall name key,
     mnemonic_token line = Some name -> lookup name = Own key ->
     tbl key = tbl' key) ->
  parseLine_with tbl line = parseLine_with tbl' line.
Proof.
  intros H. unfold parseLine_with.
  pose proof (H : forall name key, mnemonic_token line = Some name -> _) as H'.
  unfold mnemonic_token in H'.
  destruct (is_empty _); [done|].
  destruct (match_COMMAND _) as [[name rest]|]; [|done].
  destruct (lookup name) as [key| |] eqn:E; [|done|done].
  specialize (H' name key eq_refl E). unfold encode. by rewrite H'.
Qed.

(** C9, as the program has it.  Every numeric code of the table is
    between 0 and 15 and no two mnemonics share one.  Nothing is asserted
    when the module is loaded: the one check is made by each call of
    [parseLine], on the code of that line's mnemonic, and throws when the
    code exceeds 15; the other entries are not looked at, and no check of
    uniqueness exists. *)
Theorem codes_checked_on_each_parse :
  (forall k, exists c, INSTRUCTION_NUMBERS k = Fin c /\ 0 <= c <= 15)
  /\ (forall k1 k2,
        INSTRUCTION_NUMBERS k1 = INSTRUCTION_NUMBERS k2 -> k1 = k2)
  /\ (forall tbl line name key,
        mnemonic_token line = Some name -> lookup name = Own key ->
        js_gt (tbl key) 15 = true ->
        parseLine_with tbl line = Throw (InvalidInstructionNumber (tbl key)))
  /\ (forall tbl tbl' line,
        (forall name key,
           mnemonic_token line = Some name -> lookup name = Own key ->
           tbl key = tbl' key) ->
        parseLine_with tbl line = parseLine_with tbl' line).
Proof.
  split_and!.
  - apply INSTRUCTION_NUMBERS_4_bits.
  - apply INSTRUCTION_NUMBERS_unique.
  - intros tbl line name key Ht Hl Hg.
    destruct (parseLine_with_Own tbl _ _ _ Ht Hl) as (text & _ & ->).
    by rewrite Hg.
  - apply parseLine_with_ext.
Qed.

Lemma codes_checked_on_each_parse_witness :
  parseLine_with oversized_table (str "add R1 R2 R3")
  = Throw (InvalidInstructionNumber (Fin 16))
  /\ parseLine_with oversized_table (str "halt") = parseLine (str "halt").
Proof.
  split.
  - apply (proj1 (proj2 (proj2 codes_checked_on_each_parse))
             oversized_table (str "add R1 R2 R3") (str "add") Kadd);
      reflexivity.
  - apply (proj2 (proj2 (proj2 codes_checked_on_each_parse))
             oversized_table INSTRUCTION_NUMBERS (str "halt")).
    intros name key Ht Hl. vm_compute in Ht. injection Ht as <-.
    vm_compute in Hl. injection Hl as <-. reflexivity.
Defined.

(** With a table holding the code 16 for [add], a program without [add]
    assembles: no entry was asserted beforehand.  A line with [add] then
    throws, at that parse.  With a table giving [mov1] and [mov2] the same
    code, both lines parse, to the same word. *)
Lemma table_is_not_asserted_at_initialization :
  parse_with oversized_table (str "halt")
  = Ok [{| args := []; evaluate := Ehalt; hex := str "F000" |}]
  /\ parseLine_with oversized_table (str "add R1 R2 R3")
     = Throw (InvalidInstructionNumber (Fin 16))
  /\ parseLine_with duplicated_table (str "mov1 R1 5")
     = Ok (Some {| args := [Fin 1; Fin 5]; evaluate := Emov1;
                   hex := str "0105" |})
  /\ parseLine_with duplicated_table (str "mov2 R1 5")
     = Ok (Some {| args := [Fin 1; Fin 5]; evaluate := Emov2;
                   hex := str "0105" |}).
Proof. split_and!; vm_compute; reflexivity. Qed.

(** ** The word of a line *)

Section Encoding.

Lemma fits_inv w v :
  fits w v = true -> exists z, v = Fin z /\ 0 <= z < 2 ^ w.
Proof.
  destruct v as [| | | |z]; simpl; try discriminate.
  intros H. apply andb_true_iff in H as [H1 H2].
  apply Z.leb_le in H1. apply Z.ltb_lt in H2. by exists z.
Qed.

Lemma js_shl_12 z : 0 <= z < 16 -> js_shl (Fin z) 12 = Fin (z * 4096).
Proof.
  intros H. apply (js_shl_small z 12);
    change (2 ^ 31) with 2147483648; change (2 ^ 12) with 4096; lia.
Qed.

Lemma js_shl_8 z : 0 <= z < 16 -> js_shl (Fin z) 8 = Fin (z * 256).
Proof.
  intros H. apply (js_shl_small z 8);
    change (2 ^ 31) with 2147483648; change (2 ^ 8) with 256; lia.
Qed.

Lemma js_shl_4 z : 0 <= z < 16 -> js_shl (Fin z) 4 = Fin (z * 16).
Proof.
  intros H. apply (js_shl_small z 4);
    change (2 ^ 31) with 2147483648; change (2 ^ 4) with 16; lia.
Qed.

Lemma js_shl_0 z : 0 <= z < 16 -> js_shl (Fin z) 0 = Fin z.
Proof.
  intros H. rewrite (js_shl_small z 0);
    change (2 ^ 31) with 2147483648; change (2 ^ 0) with 1; try lia.
  f_equal; lia.
Qed.

Lemma js_add_word x y :
  0 <= x < 65536 -> 0 <= y < 65536 -> js_add (Fin x) (Fin y) = Fin (x + y).
Proof.
  intros Hx Hy. apply js_add_small.
  change (2 ^ 53) with 9007199254740992. lia.
Qed.

Local Arguments js_shl : simpl never.
Local Arguments js_add : simpl never.
Local Arguments Z.mul : simpl never.
Local Arguments Z.add : simpl never.
Local Arguments Z.pow : simpl never.
Local Arguments Z.sub : simpl never.

(** When the operands fit their fields, the additions of [parseLine]
    are the integer ones, no field carries into another, and the word
    is the code times 4096 plus the operand bits. *)
Lemma encode_fit key numbers :
  List.length numbers = List.length (makeRegex (PATTERNS key).1) ->
  operands_fit (PATTERNS key).1 numbers = true ->
  let r := default 0%nat (registers (PATTERNS key).1) in
  let i := default false (immediate (PATTERNS key).1) in
  0 <= operand_sum r i numbers < 4096
  /\ encode INSTRUCTION_NUMBERS key r i numbers
     = Fin (integer (INSTRUCTION_NUMBERS key) * 4096
            + operand_sum r i numbers).
Proof.
  intros Hlen Hfit.
  destruct key; simpl in Hlen;
    repeat (destruct numbers as [|? numbers]; try discriminate Hlen);
    unfold operands_fit in Hfit; simpl in Hfit;
    rewrite ?andb_true_r in Hfit;
    repeat (apply andb_true_iff in Hfit as [? Hfit]);
    repeat match goal with
           | H : fits _ _ = true |- _ =>
               apply fits_inv in H as (? & -> & ?)
           end;
    unfold encode, operand_sum; simpl;
    change (4 * (2 - Z.of_nat 0)) with 8;
    change (4 * (2 - Z.of_nat 1)) with 4;
    change (4 * (2 - Z.of_nat 2)) with 0;
    change (16 ^ (2 - Z.of_nat 0)) with 256;
    change (16 ^ (2 - Z.of_nat 1)) with 16;
    change (16 ^ (2 - Z.of_nat 2)) with 1;
    change (2 ^ 4) with 16 in *;
    change (2 ^ (4 * (3 - Z.of_nat 1))) with 256 in *;
    change (2 ^ (4 * (3 - Z.of_nat 0))) with 4096 in *;
    rewrite ?js_shl_12, ?js_shl_8, ?js_shl_4, ?js_shl_0 by lia;
    rewrite ?js_add_word by lia;
    (split; [lia | f_equal; lia]).
Qed.

Lemma js_gt_INSTRUCTION_NUMBERS key :
  js_gt (INSTRUCTION_NUMBERS key) 15 = false.
Proof. by destruct key. Qed.

Lemma top_digit_HEX_word z :
  0 <= z < 65536 -> top_digit (HEX_word z) = Some (z / 4096).
Proof.
  intros H. apply HEX_value_char. Z.div_mod_to_equations. lia.
Qed.

(** A line whose operands match and fit parses, to the word of its
    code and operand bits. *)
Lemma fitting_line_parses line name key text groups :
  mnemonic_token line = Some name -> lookup name = Own key ->
  operand_text line = Some text ->
  regex_match (makeRegex (PATTERNS key).1) text = Some groups ->
  operands_fit (PATTERNS key).1 (List.map parseInt groups) = true ->
  parseLine line
  = Ok (Some {| args := List.map parseInt groups;
                evaluate := (PATTERNS key).2;
                hex := HEX_word
                         (integer (INSTRUCTION_NUMBERS key) * 4096
                          + operand_sum
                              (default 0%nat (registers (PATTERNS key).1))
                              (default false (immediate (PATTERNS key).1))
                              (List.map parseInt groups)) |}).
Proof.
  intros Ht Hl Ho Hr Hfit. unfold parseLine.
  destruct (parseLine_with_Own INSTRUCTION_NUMBERS _ _ _ Ht Hl)
    as (text' & Ho' & ->).
  assert (text' = text) as -> by congruence.
  rewrite js_gt_INSTRUCTION_NUMBERS, Hr.
  destruct (encode_fit key (List.map parseInt groups)) as [Hb ->];
    [|done|].
  { rewrite length_map. by apply regex_match_length in Hr. }
  destruct (INSTRUCTION_NUMBERS_4_bits key) as (c & Hc & Hc'). rewrite Hc.
  simpl integer.
  destruct (toHex_word (c * 4096 + operand_sum
              (default 0%nat (registers (PATTERNS key).1))
              (default false (immediate (PATTERNS key).1))
              (List.map parseInt groups))) as (h & -> & Hh); [lia|].
  simpl. by rewrite Hh.
Qed.

End Encoding.

(** The line [mov3 R16 R0] parses under the mnemonic [mov3], whose code is
    2, and the top digit of its word is 3. *)
Lemma top_digit_is_not_always_the_code :
  exists ins,
    parseLine (str "mov3 R16 R0") = Ok (Some ins)
    /\ mnemonic_token (str "mov3 R16 R0") = Some (mnemonic_name Kmov3)
    /\ INSTRUCTION_NUMBERS Kmov3 = Fin 2
    /\ top_digit (hex ins) = Some 3.
Proof. eexists. split_and!; vm_compute; reflexivity. Qed.

(** C3, as the program has it.  For every mnemonic of the table and every
    line that parses successfully under it, if every register operand is
    at most 15 and the immediate fits the bits the register fields leave
    free, then the top hexadecimal digit of the encoded word is the
    numeric code of the mnemonic. *)
Theorem top_digit_is_the_code line name key ins :
  parseLine line = Ok (Some ins) ->
  mnemonic_token line = Some name -> lookup name = Own key ->
  operands_fit (PATTERNS key).1 (args ins) = true ->
  Fin <$> top_digit (hex ins) = Some (INSTRUCTION_NUMBERS key)
  /\ List.length (hex ins) = 4%nat.
Proof.
  intros Hp Ht Hl Hfit.
  destruct (parseLine_with_Own INSTRUCTION_NUMBERS _ _ _ Ht Hl)
    as (text & Ho & E).
  unfold parseLine in Hp. rewrite Hp, js_gt_INSTRUCTION_NUMBERS in E.
  destruct (regex_match _ text) as [groups|] eqn:Hr; [|done].
  assert (args ins = List.map parseInt groups) as Ha.
  { destruct (toHex _ 4); simpl in E; [|done]. by injection E as ->. }
  rewrite Ha in Hfit.
  pose proof (fitting_line_parses _ _ _ _ _ Ht Hl Ho Hr Hfit) as Hw.
  unfold parseLine in Hw. rewrite Hp in Hw. injection Hw as ->. cbn [hex].
  destruct (encode_fit key (List.map parseInt groups)) as [Hb _]; [|done|].
  { rewrite length_map. by apply regex_match_length in Hr. }
  destruct (INSTRUCTION_NUMBERS_4_bits key) as (c & Hc & Hc'). rewrite Hc.
  split; [|reflexivity]. simpl integer.
  rewrite top_digit_HEX_word by lia. simpl. do 2 f_equal.
  Z.div_mod_to_equations. lia.
Qed.

Lemma top_digit_is_the_code_witness :
  Fin <$> top_digit (str "4123") = Some (INSTRUCTION_NUMBERS Kadd)
  /\ List.length (str "4123") = 4%nat.
Proof.
  apply (top_digit_is_the_code (str "add R1 R2 R3") (str "add") Kadd
           {| args := [Fin 1; Fin 2; Fin 3]; evaluate := Eadd;
              hex := str "4123" |});
    vm_compute; reflexivity.
Defined.

(** ** Every word of a successful parse *)

Section Words16.

Lemma digit_not_trim_space c : is_digit c = true -> is_trim_space c = false.
Proof.
  unfold is_digit. intros H. apply andb_true_iff in H as [H1 H2].
  apply N.leb_le in H1. apply N.leb_le in H2.
  unfold is_trim_space, is_white_space, is_line_terminator.
  repeat match goal with
         | |- context [(c =? ?k)%N] =>
             destruct (N.eqb_spec c k); [lia|]
         end.
  destruct (N.leb_spec 8192 c); [lia|]. reflexivity.
Qed.

Lemma digits_fold_nonneg ds acc :
  0 <= acc -> forallb is_digit ds = true ->
  0 <= fold_left (fun acc c => 10 * acc + (Z.of_N c - 48)) ds acc.
Proof.
  revert acc. induction ds as [|c ds IH]; intros acc Hacc Hds; simpl in *.
  - done.
  - apply andb_true_iff in Hds as [Hc Hds]. apply IH; [|done].
    unfold is_digit in Hc. apply andb_true_iff in Hc as [H1 _].
    apply N.leb_le in H1. lia.
Qed.

Lemma digits_value_nonneg ds :
  forallb is_digit ds = true -> 0 <= digits_value ds.
Proof. intros H. by apply digits_fold_nonneg. Qed.

(** [parseInt] on a capture of [[0-9]+] is the value of the digits,
    rounded. *)
Lemma parseInt_digits g :
  digits g ->
  parseInt g
  = if digits_value g =? 0 then Fin 0 else of_Z (digits_value g).
Proof.
  intros [Hn Hg]. unfold parseInt.
  destruct g as [|c g]; [done|]. simpl in Hg.
  apply andb_true_iff in Hg as [Hc Hg].
  simpl drop_while. rewrite (digit_not_trim_space _ Hc).
  assert ((c =? 45)%N = false /\ (c =? 43)%N = false) as [-> ->].
  { unfold is_digit in Hc. apply andb_true_iff in Hc as [H1 _].
    apply N.leb_le in H1. split; apply N.eqb_neq; lia. }
  replace (span is_digit (c :: g)) with (c :: g, @nil N).
  2:{ symmetry. rewrite <- (app_nil_r (c :: g)) at 1.
      apply span_app; [|done]. simpl. by rewrite Hc. }
  reflexivity.
Qed.

Lemma round_mag_nonneg n v : 0 <= n -> round_mag n = Some v -> 0 <= v.
Proof.
  intros Hn. unfold round_mag. destruct (Z.log2 n <? 53); [by intros [= <-]|].
  set (e := Z.log2 n - 52). set (q := Z.shiftr n e).
  assert (0 <= q) by (apply Z.shiftr_nonneg; lia).
  match goal with |- context [Z.shiftl ?q' e] => set (r := q') end.
  assert (0 <= r).
  { subst r. repeat match goal with
                    | |- context [if ?b then _ else _] => destruct b
                    end; lia. }
  destruct (_ <=? _); [done|]. intros [= <-]. by apply Z.shiftl_nonneg.
Qed.

Lemma of_Z_nonneg n : 0 <= n -> operand_value (of_Z n).
Proof.
  intros Hn. unfold of_Z. destruct (Z.ltb_spec n 0); [lia|].
  destruct (round_mag n) as [v|] eqn:E; [|by left].
  right. exists v. split; [done|]. by eapply round_mag_nonneg.
Qed.

Lemma parseInt_operand g : digits g -> operand_value (parseInt g).
Proof.
  intros Hg. rewrite (parseInt_digits _ Hg).
  destruct (_ =? 0); [right; by exists 0|].
  apply of_Z_nonneg, digits_value_nonneg, Hg.
Qed.

Lemma pattern_text_digits regex s gs :
  pattern_text regex s gs -> Forall digits gs.
Proof.
  induction 1 as [|p t g Ht|p q regex t g sp s gs Ht _ _ IH].
  - constructor.
  - constructor; [by destruct Ht | constructor].
  - constructor; [by destruct Ht | done].
Qed.

Lemma regex_match_operands regex s gs :
  regex_match regex s = Some gs ->
  Forall operand_value (List.map parseInt gs).
Proof.
  intros H. apply regex_match_spec, pattern_text_digits in H.
  induction H; simpl; constructor; [by apply parseInt_operand | done].
Qed.

Lemma js_shl_int32 a k :
  exists x, js_shl a k = Fin x /\ - 2147483648 <= x < 2147483648.
Proof. eexists. split; [reflexivity|]. apply wrap32_range. Qed.

Lemma js_add_bounded x y :
  - 1099511627776 < x < 1099511627776 ->
  - 1099511627776 < y < 1099511627776 ->
  js_add (Fin x) (Fin y) = Fin (x + y).
Proof.
  intros Hx Hy. apply js_add_small.
  change (2 ^ 53) with 9007199254740992. lia.
Qed.

Lemma js_add_operand x v :
  - 1099511627776 < x -> operand_value v ->
  integer_or_infinity (js_add (Fin x) v).
Proof.
  intros Hx [-> | (m & -> & Hm)]; [by left|]. simpl.
  destruct (x + m =? 0); [right; by eexists|].
  unfold of_Z. destruct (Z.ltb_spec (x + m) 0).
  - rewrite round_mag_small; [right; by eexists|].
    change (2 ^ 53) with 9007199254740992. lia.
  - destruct (round_mag (x + m)); [right; by eexists | by left].
Qed.

Local Arguments js_shl : simpl never.
Local Arguments js_add : simpl never.
Local Arguments Z.mul : simpl never.
Local Arguments Z.add : simpl never.
Local Arguments Z.sub : simpl never.

(** Whatever the operands, the word [parseLine] computes is an integer or
    infinity: never NaN, never a negative zero. *)
Lemma encode_integer_or_infinity key numbers :
  List.length numbers = List.length (makeRegex (PATTERNS key).1) ->
  Forall operand_value numbers ->
  integer_or_infinity
    (encode INSTRUCTION_NUMBERS key
       (default 0%nat (registers (PATTERNS key).1))
       (default false (immediate (PATTERNS key).1)) numbers).
Proof.
  intros Hlen Hops.
  destruct key; simpl in Hlen;
    repeat (destruct numbers as [|? numbers]; try discriminate Hlen);
    repeat match goal with
           | H : Forall _ (_ :: _) |- _ =>
               apply Forall_cons_iff in H as [? H]
           end;
    unfold encode; simpl;
    repeat match goal with
           | |- context [js_shl ?a ?k] =>
               let x := fresh "x" in
               destruct (js_shl_int32 a k) as (x & -> & ?)
           end;
    rewrite ?js_add_bounded by lia;
    first [ apply js_add_operand; [lia | done] | right; by eexists ].
Qed.

Lemma hex_digits_aux_ascii fuel z acc :
  Forall (fun c => (c < 128)%N) acc ->
  Forall (fun c => (c < 128)%N) (hex_digits_aux fuel z acc).
Proof.
  revert z acc. induction fuel as [|fuel IH]; intros z acc Hacc; simpl.
  - done.
  - assert (hex_char (z mod 16) < 128)%N as Hc.
    { assert (0 <= z mod 16 < 16) as Hd by (apply Z.mod_pos_bound; lia).
      apply hex_digit_cases in Hd.
      repeat (destruct Hd as [-> | Hd]; [reflexivity|]). by rewrite Hd. }
    destruct (z / 16 =? 0); [by constructor|]. apply IH. by constructor.
Qed.

(** What [toHex] returns is ASCII. *)
Lemma toHex_ascii decimal length h :
  toHex decimal length = Ok h -> Forall (fun c => (c < 128)%N) h.
Proof.
  unfold toHex. destruct (js_ge _ _); [done|]. intros [= <-].
  apply Forall_app. split.
  - apply List.Forall_forall. intros c Hc. apply repeat_spec in Hc. by subst.
  - destruct decimal as [| | | |z]; simpl;
      try (repeat constructor; done).
    destruct (z <? 0).
    + constructor; [done|]. by apply hex_digits_aux_ascii.
    + by apply hex_digits_aux_ascii.
Qed.

End Words16.

(** X7.  The word of every line that parses is an integer below 65536.
    When it is not negative, the hex field is its four upper-case digits;
    when it is negative, the hex field holds a minus sign. *)
Lemma parsed_word line name key ins :
  parseLine line = Ok (Some ins) ->
  mnemonic_token line = Some name -> lookup name = Own key ->
  exists z,
    encode INSTRUCTION_NUMBERS key
      (default 0%nat (registers (PATTERNS key).1))
      (default false (immediate (PATTERNS key).1)) (args ins) = Fin z
    /\ z < 65536
    /\ (0 <= z -> hex ins = HEX_word z)
    /\ (z < 0 -> In 45%N (hex ins)).
Proof.
  intros Hp Ht Hl.
  destruct (parseLine_with_Own INSTRUCTION_NUMBERS _ _ _ Ht Hl)
    as (text & Ho & E).
  unfold parseLine in Hp. rewrite Hp, js_gt_INSTRUCTION_NUMBERS in E.
  destruct (regex_match _ text) as [groups|] eqn:Hr; [|done].
  destruct (toHex _ 4) as [h|] eqn:Eh; simpl in E; [|done].
  injection E as ->. simpl.
  destruct (encode_integer_or_infinity key (List.map parseInt groups))
    as [Hd | [z Hd]].
  { rewrite length_map. by apply regex_match_length in Hr. }
  { by eapply regex_match_operands. }
  { by rewrite Hd in Eh. }
  rewrite Hd in Eh. exists z. split; [done|].
  assert (z < 65536) as Hz.
  { unfold toHex in Eh. simpl js_ge in Eh.
    change (16 ^ Z.of_nat 4) with 65536 in Eh.
    destruct (Z.geb_spec z 65536); [done | lia]. }
  split_and!; [done | |].
  - intros Hz0. destruct (toHex_word z) as (h' & Eh' & <-); [lia|].
    congruence.
  - intros Hneg. unfold toHex in Eh. destruct (js_ge _ _); [done|].
    injection Eh as <-. simpl toString16.
    destruct (Z.ltb_spec z 0); [|lia].
    unfold toUpperCase. apply in_map_iff. exists 45%N.
    split; [reflexivity|]. apply in_or_app. right. by left.
Qed.

(** X11.  The arguments of a parsed instruction are as many as the
    parameters of its action: [call] never binds [undefined]. *)
Lemma parsed_arity line ins :
  parseLine line = Ok (Some ins) ->
  List.length (args ins) = arity (evaluate ins).
Proof.
  intros H. apply parseLine_with_Some in H
    as (name & rest & key & groups & h & _ & _ & _ & _ & Hr & _ & ->).
  simpl. rewrite length_map. apply regex_match_length in Hr. rewrite Hr.
  by destruct key.
Qed.

(** The word of each operand shape of the table, in the operators of the
    program: the code shifted by 12, the registers shifted by 8, 4 and 0,
    the immediate added as it is. *)
Lemma encode_shapes tbl key v0 v1 v2 m :
  encode tbl key 0 false [] = js_shl (tbl key) 12
  /\ encode tbl key 0 true [m] = js_add (js_shl (tbl key) 12) m
  /\ encode tbl key 1 true [v0; m]
     = js_add (js_add (js_shl (tbl key) 12) (js_shl v0 8)) m
  /\ encode tbl key 2 false [v0; v1]
     = js_add (js_add (js_shl (tbl key) 12) (js_shl v0 8)) (js_shl v1 4)
  /\ encode tbl key 3 false [v0; v1; v2]
     = js_add
         (js_add (js_add (js_shl (tbl key) 12) (js_shl v0 8)) (js_shl v1 4))
         (js_shl v2 0).
Proof. by split_and!. Qed.

(** * Further properties *)

(** ** The actions together *)

Section MoreActions.

Implicit Types (s : State) (r a m k : value).

Lemma set_set (arr : gmap value value) k v w :
  set (set arr k v) k w = set arr k w.
Proof. unfold set. apply insert_insert_eq. Qed.

(** X15.  What is stored is what is fetched: after [mov2 r a] then
    [mov1 r' a], register [r'] holds what register [r] held; after
    [mov4 a m] then [mov1 r a], register [r] holds [m]; after
    [mov3 a r] then [load r' a], register [r'] holds what register [r]
    held.  No index is checked on the way. *)
Theorem store_then_fetch r r' a m s :
  get (REG (mov1 r' a (mov2 r a s))) r' = get (REG s) r
  /\ get (REG (mov1 r a (mov4 a m s))) r = m
  /\ get (REG (load r' a (mov3 a r s))) r' = get (REG s) r.
Proof.
  split_and!.
  - unfold mov1, mov2. simpl. by rewrite !get_set_eq.
  - unfold mov1, mov4. simpl. by rewrite !get_set_eq.
  - unfold load, mov3. simpl. by rewrite !get_set_eq.
Qed.

(** X16.  Every action writes one place at most: the register file is
    left alone by all but [mov1], [add], [subt], [mul] and [load], the
    memory by all but [mov2], [mov3] and [mov4], the output log by all but
    [readm], the program counter by all but [jz]. *)
Theorem actions_write_one_place e args s :
  (writes_REG e = false -> REG (call e args s).1 = REG s)
  /\ (writes_MEM e = false -> MEM (call e args s).1 = MEM s)
  /\ (e <> Ereadm -> OUT (call e args s).1 = OUT s)
  /\ (e <> Ejz -> COUNTER (call e args s).1 = COUNTER s).
Proof.
  split_and!; intros H; destruct e; simpl in *; try done;
    unfold jz; by destruct (strict_ne_0 _).
Qed.

Lemma actions_write_one_place_witness :
  REG (call Emov4 [Fin 3; Fin 9] initial).1 = REG initial
  /\ MEM (call Eadd [Fin 1; Fin 2; Fin 3] initial).1 = MEM initial
  /\ OUT (call Ejz [Fin 99; Fin 7] initial).1 = OUT initial
  /\ COUNTER (call Ereadm [Fin 5] initial).1 = COUNTER initial.
Proof.
  split_and!.
  - apply (proj1 (actions_write_one_place Emov4 [Fin 3; Fin 9] initial)).
    reflexivity.
  - apply (proj1 (proj2 (actions_write_one_place Eadd [Fin 1; Fin 2; Fin 3]
                           initial))).
    reflexivity.
  - apply (proj1 (proj2 (proj2 (actions_write_one_place Ejz [Fin 99; Fin 7]
                                  initial)))).
    discriminate.
  - apply (proj2 (proj2 (proj2 (actions_write_one_place Ereadm [Fin 5]
                                  initial)))).
    discriminate.
Defined.

(** X17.  Running [mov1], [mov2], [mov3], [mov4], [jz], [halt] or [readm]
    a second time with the same arguments changes nothing more. *)
Theorem repeating_an_action e args s :
  repeats_harmlessly e = true ->
  (call e args (call e args s).1).1 = (call e args s).1.
Proof.
  intros H. destruct e; try discriminate H; simpl.
  - unfold mov1, with_REG. simpl. by rewrite set_set.
  - unfold mov2, with_MEM. simpl. by rewrite set_set.
  - unfold mov3, with_MEM. simpl. by rewrite set_set.
  - unfold mov4, with_MEM. simpl. by rewrite set_set.
  - unfold jz. destruct (strict_ne_0 (get (REG s) _)) eqn:E; simpl;
      by rewrite E.
  - reflexivity.
  - unfold readm, with_OUT. simpl. by rewrite set_set.
Qed.

Lemma repeating_an_action_witness :
  (call Emov3 [Fin 1; Fin 2] (call Emov3 [Fin 1; Fin 2] initial).1).1
  = (call Emov3 [Fin 1; Fin 2] initial).1.
Proof.
  apply (repeating_an_action Emov3 [Fin 1; Fin 2] initial). reflexivity.
Defined.

Lemma js_add_comm (u w : number) : js_add u w = js_add w u.
Proof.
  destruct u as [| | | |x], w as [| | | |y]; simpl; try reflexivity.
  by rewrite (Z.add_comm y x).
Qed.

Lemma js_mul_comm (u w : number) : js_mul u w = js_mul w u.
Proof.
  unfold js_mul.
  rewrite (orb_comm (is_nan u)), (orb_comm (is_inf u) (is_inf w)),
    (xorb_comm (sign_bit u)), (Z.mul_comm (magnitude u)).
  rewrite (orb_comm (is_inf u && is_zero w)).
  by rewrite (andb_comm (is_inf u)), (andb_comm (is_zero u)).
Qed.

(** X19.  The two source registers of [add] and of [mul] can be swapped:
    the state afterwards is the same, rounding, infinities, NaN and the
    sign of zero included. *)
Theorem add_and_mul_commute r1 r2 r3 s :
  add r1 r2 r3 s = add r1 r3 r2 s /\ mul r1 r2 r3 s = mul r1 r3 r2 s.
Proof.
  unfold add, mul, plus, times. split.
  - by rewrite js_add_comm.
  - by rewrite js_mul_comm.
Qed.

Lemma js_mul_Fin x y :
  js_mul (Fin x) (Fin y)
  = if x * y =? 0 then (if xorb (x <? 0) (y <? 0) then NZero else Fin 0)
    else of_Z (x * y).
Proof.
  unfold js_mul. cbn [is_nan is_inf orb andb sign_bit magnitude].
  rewrite andb_false_r. cbn [orb]. rewrite <- Z.abs_mul.
  destruct (Z.eqb_spec (x * y) 0) as [E | E].
  - rewrite E. reflexivity.
  - destruct (Z.eqb_spec (Z.abs (x * y)) 0) as [E' | _]; [lia|].
    f_equal.
    destruct (Z.ltb_spec x 0), (Z.ltb_spec y 0); simpl; nia.
Qed.

(** X20.  On registers holding integers, [add], [subt] and [mul] compute
    the integer sum, difference and product whenever that result is
    within the exactly representable range (below 2^53 in magnitude); a
    zero product may be the negative zero, which names the same slot and
    tests equal to 0. *)
Theorem arithmetic_is_exact_on_safe_integers r1 r2 r3 x y s :
  get (REG s) r2 = Num (Fin x) -> get (REG s) r3 = Num (Fin y) ->
  (- 2 ^ 53 < x + y < 2 ^ 53 ->
   get (REG (add r1 r2 r3 s)) r1 = Num (Fin (x + y)))
  /\ (- 2 ^ 53 < x - y < 2 ^ 53 ->
      get (REG (subt r1 r2 r3 s)) r1 = Num (Fin (x - y)))
  /\ (- 2 ^ 53 < x * y < 2 ^ 53 ->
      to_key (get (REG (mul r1 r2 r3 s)) r1) = Num (Fin (x * y))).
Proof.
  intros H2 H3. unfold add, subt, mul, plus, minus, times.
  cbn [REG with_REG]. rewrite !get_set_eq, H2, H3. cbn [to_number].
  split_and!; intros H.
  - by rewrite js_add_small.
  - unfold js_sub. destruct (Z.eq_dec y 0) as [-> | Hy].
    + simpl. by rewrite Z.sub_0_r.
    + replace (js_neg (Fin y)) with (Fin (- y)) by (by destruct y).
      rewrite js_add_small by lia. reflexivity.
  - rewrite js_mul_Fin. destruct (Z.eqb_spec (x * y) 0) as [-> | E].
    + by destruct (xorb _ _).
    + rewrite of_Z_small by lia. by destruct (x * y).
Qed.

Lemma arithmetic_is_exact_on_safe_integers_witness :
  get (REG (add (Num (Fin 1)) (Num (Fin 2)) (Num (Fin 3)) six_and_seven))
    (Num (Fin 1)) = Num (Fin (6 + 7))
  /\ get (REG (subt (Num (Fin 1)) (Num (Fin 2)) (Num (Fin 3)) six_and_seven))
       (Num (Fin 1)) = Num (Fin (6 - 7))
  /\ to_key
       (get (REG (mul (Num (Fin 1)) (Num (Fin 2)) (Num (Fin 3))
                    six_and_seven))
          (Num (Fin 1))) = Num (Fin (6 * 7)).
Proof.
  assert (get (REG six_and_seven) (Num (Fin 2)) = Num (Fin 6)) as H2
    by (vm_compute; reflexivity).
  assert (get (REG six_and_seven) (Num (Fin 3)) = Num (Fin 7)) as H3
    by (vm_compute; reflexivity).
  split_and!.
  - apply (proj1 (arithmetic_is_exact_on_safe_integers (Num (Fin 1))
                    (Num (Fin 2)) (Num (Fin 3)) 6 7 six_and_seven H2 H3)).
    vm_compute. by split.
  - apply (proj1 (proj2 (arithmetic_is_exact_on_safe_integers (Num (Fin 1))
                           (Num (Fin 2)) (Num (Fin 3)) 6 7 six_and_seven
                           H2 H3))).
    vm_compute. by split.
  - apply (proj2 (proj2 (arithmetic_is_exact_on_safe_integers (Num (Fin 1))
                           (Num (Fin 2)) (Num (Fin 3)) 6 7 six_and_seven
                           H2 H3))).
    vm_compute. by split.
Defined.

End MoreActions.

(** ** The initial state *)

Section Initial.

Lemma zeros_from_lookup (a n : nat) (k : value) :
  (list_to_map
     (List.map (fun i => (Num (Fin (Z.of_nat i)), Num (Fin 0))) (seq a n))
   : gmap value value) !! k
  = match k with
    | Num (Fin i) =>
        if (Z.of_nat a <=? i) && (i <? Z.of_nat (a + n))
        then Some (Num (Fin 0)) else None
    | _ => None
    end.
Proof.
  revert a. induction n as [|n IH]; intros a; simpl.
  - rewrite lookup_empty. destruct k as [|[| | | |i]]; try reflexivity.
    destruct (Z.leb_spec (Z.of_nat a) i), (Z.ltb_spec i (Z.of_nat (a + 0)));
      simpl; try reflexivity; lia.
  - destruct (decide (Num (Fin (Z.of_nat a)) = k)) as [<- | Hne].
    + rewrite lookup_insert_eq.
      destruct (Z.leb_spec (Z.of_nat a) (Z.of_nat a)),
        (Z.ltb_spec (Z.of_nat a) (Z.of_nat (a + S n)));
        simpl; try reflexivity; lia.
    + rewrite lookup_insert_ne by done. rewrite IH.
      destruct k as [|[| | | |i]]; try reflexivity.
      assert (i <> Z.of_nat a) by congruence.
      destruct (Z.leb_spec (Z.of_nat (S a)) i),
        (Z.ltb_spec i (Z.of_nat (S a + n))),
        (Z.leb_spec (Z.of_nat a) i),
        (Z.ltb_spec i (Z.of_nat (a + S n)));
        simpl; try reflexivity; lia.
Qed.

Lemma get_zeros n k : get (zeros n) k = fresh_slot (Z.of_nat n) k.
Proof.
  unfold get, zeros, fresh_slot, slot_index. rewrite zeros_from_lookup.
  destruct (to_key k) as [|[| | | |i]]; try reflexivity.
  simpl. by destruct (_ && _).
Qed.

(** X18.  When the module is loaded, registers 0 to 15 and memory slots 0
    to 255 hold 0, every other subscript of the two arrays and every
    subscript of the output log reads [undefined], and the program
    counter is 0. *)
Theorem initial_state_slots k :
  get (REG initial) k = fresh_slot 16 k
  /\ get (MEM initial) k = fresh_slot 256 k
  /\ get (OUT initial) k = Undefined
  /\ COUNTER initial = Num (Fin 0).
Proof.
  split_and!; [apply get_zeros | apply get_zeros | | reflexivity].
  unfold get. simpl. by rewrite lookup_empty.
Qed.

End Initial.

(** ** Hexadecimal strings *)

Section Hex.

Lemma digit16_hex_char d : 0 <= d < 16 -> digit16 (hex_char d) = Some d.
Proof.
  intros H. apply hex_digit_cases in H.
  repeat (destruct H as [-> | H]; [reflexivity|]). by subst.
Qed.

Lemma hex_digits_aux_acc fuel z acc :
  hex_digits_aux fuel z acc = hex_digits_aux fuel z [] ++ acc.
Proof.
  revert z acc. induction fuel as [|fuel IH]; intros z acc; simpl; [done|].
  destruct (z / 16 =? 0); [done|].
  rewrite (IH _ (_ :: acc)), (IH _ [_]). by rewrite <- app_assoc.
Qed.

Lemma hex_digits_aux_value fuel z :
  0 <= z < 16 ^ Z.of_nat fuel ->
  hex_value (hex_digits_aux fuel z []) = Some z
  /\ (List.length (hex_digits_aux fuel z []) <= fuel)%nat.
Proof.
  revert z. induction fuel as [|fuel IH]; intros z Hz.
  - simpl in *. assert (z = 0) as -> by lia. by split.
  - rewrite Nat2Z.inj_succ, Z.pow_succ_r in Hz by lia.
    assert (0 <= z mod 16 < 16) as Hd by (apply Z.mod_pos_bound; lia).
    simpl. destruct (Z.eqb_spec (z / 16) 0) as [E | E].
    + unfold hex_value. simpl. rewrite digit16_hex_char by done. simpl.
      split; [f_equal; Z.div_mod_to_equations; lia | lia].
    + rewrite hex_digits_aux_acc.
      destruct (IH (z / 16)) as [Hv Hl].
      { Z.div_mod_to_equations. lia. }
      split.
      * unfold hex_value in *. rewrite fold_left_app, Hv. simpl.
        rewrite digit16_hex_char by done. f_equal.
        Z.div_mod_to_equations. lia.
      * rewrite length_app. simpl. lia.
Qed.

Lemma hex_digits_aux_fuel f F z acc :
  0 <= z < 16 ^ Z.of_nat (S f) ->
  hex_digits_aux (S f + F) z acc = hex_digits_aux (S f) z acc.
Proof.
  revert z acc. induction f as [|f IH]; intros z acc Hz.
  - change (16 ^ Z.of_nat 1) with 16 in Hz. simpl.
    destruct (Z.eqb_spec (z / 16) 0) as [E | E]; [done|].
    exfalso. apply E. Z.div_mod_to_equations. lia.
  - rewrite Nat2Z.inj_succ, Z.pow_succ_r in Hz by lia.
    change (S (S f) + F)%nat with (S (S f + F)).
    cbn [hex_digits_aux].
    destruct (z / 16 =? 0); [done|]. apply IH.
    Z.div_mod_to_equations. lia.
Qed.

Lemma hex_digits_nonempty fuel z acc :
  hex_digits_aux (S fuel) z acc <> [].
Proof.
  simpl. destruct (z / 16 =? 0); [done|].
  rewrite hex_digits_aux_acc. by destruct (hex_digits_aux fuel (z / 16) []).
Qed.

Lemma log2_fuel z :
  0 <= z -> z < 16 ^ Z.of_nat (S (Z.to_nat (Z.log2 z))).
Proof.
  intros Hz. pose proof (Z.log2_nonneg z) as Hl.
  rewrite Nat2Z.inj_succ, Z2Nat.id by done.
  destruct (Z.eq_dec z 0) as [-> | Hn].
  { apply Z.pow_pos_nonneg; lia. }
  destruct (Z.log2_spec z) as [_ H]; [lia|].
  eapply Z.lt_le_trans; [exact H|].
  change 16 with (2 ^ 4). rewrite <- Z.pow_mul_r by lia.
  apply Z.pow_le_mono_r; lia.
Qed.

(** The digits of [z]: its value, and no more digits than a bound on [z]
    asks for. *)
Lemma hex_digits_spec z n :
  0 <= z < 16 ^ Z.of_nat n ->
  hex_value (hex_digits z) = Some z
  /\ hex_digits z <> []
  /\ (List.length (hex_digits z) <= Nat.max n 1)%nat.
Proof.
  intros Hz. unfold hex_digits.
  split_and!.
  - apply hex_digits_aux_value. split; [lia|]. apply log2_fuel. lia.
  - apply hex_digits_nonempty.
  - set (F := Z.to_nat (Z.log2 z)).
    assert (0 <= z < 16 ^ Z.of_nat (S (Nat.pred (Nat.max n 1)))) as Hz'.
    { split; [lia|]. eapply Z.lt_le_trans; [apply Hz|].
      apply Z.pow_le_mono_r; lia. }
    destruct (Nat.le_gt_cases (S F) (Nat.max n 1)) as [Hle | Hgt].
    + destruct (hex_digits_aux_value (S F) z) as [_ H].
      { split; [lia|]. apply log2_fuel. lia. }
      lia.
    + replace (S F) with (S (Nat.pred (Nat.max n 1))
                          + (S F - Nat.max n 1))%nat by lia.
      rewrite hex_digits_aux_fuel by done.
      destruct (hex_digits_aux_value (S (Nat.pred (Nat.max n 1))) z) as [_ H];
        [done|]. lia.
Qed.

Lemma hex_value_zeros k h :
  hex_value (repeat 48%N k ++ h) = hex_value h.
Proof.
  unfold hex_value. rewrite fold_left_app.
  replace (fold_left hex_step (repeat 48%N k) (Some 0)) with (Some 0); [done|].
  induction k as [|k IH]; simpl; [done|]. exact IH.
Qed.

(** X9.  For an integer [z] that the doubles hold exactly
    ([0 <= z < 2 ** 53]): when [z < 16 ** n], [toHex(z, n)] returns a
    string of [n] hexadecimal digits (of one digit when [n] is 0) whose
    value is [z]; when [z >= 16 ** n], it throws. *)
Theorem toHex_round_trip z n :
  0 <= z < 2 ^ 53 ->
  (z < 16 ^ Z.of_nat n ->
   exists h, toHex (Fin z) n = Ok h
             /\ List.length h = Nat.max n 1
             /\ hex_value h = Some z)
  /\ (16 ^ Z.of_nat n <= z ->
      toHex (Fin z) n = Throw (UnableToConvert (Fin z))).
Proof.
  intros Hsafe. unfold toHex. simpl js_ge. split; intros Hz.
  - destruct (Z.geb_spec z (16 ^ Z.of_nat n)) as [|_]; [lia|].
    eexists. split; [reflexivity|]. simpl toString16.
    destruct (Z.ltb_spec z 0) as [|_]; [lia|].
    destruct (hex_digits_spec z n) as (Hv & Hn & Hl); [lia|].
    split.
    + rewrite length_app, repeat_length.
      destruct (hex_digits z) as [|c l]; [done|]. simpl in *. lia.
    + by rewrite hex_value_zeros.
  - destruct (Z.geb_spec z (16 ^ Z.of_nat n)) as [|]; [done | lia].
Qed.

Lemma toHex_round_trip_witness :
  (exists h, toHex (Fin 291) 4 = Ok h
             /\ List.length h = Nat.max 4 1
             /\ hex_value h = Some 291)
  /\ toHex (Fin 65536) 4 = Throw (UnableToConvert (Fin 65536)).
Proof.
  split.
  - apply (proj1 (toHex_round_trip 291 4 ltac:(vm_compute; by split))).
    vm_compute. reflexivity.
  - apply (proj2 (toHex_round_trip 65536 4 ltac:(vm_compute; by split))).
    vm_compute. discriminate.
Defined.

End Hex.

(** ** Comments and margins *)

Section Margins.

Lemma split_nonempty sep s : split sep s <> [].
Proof.
  destruct s as [|c s]; simpl; [done|].
  destruct (c =? sep)%N; [done|]. by destruct (split sep s).
Qed.

(** What [split] gives first is what precedes the first separator. *)
Lemma hd_split_app sep a b :
  hd [] (split sep (a ++ b))
  = if forallb (fun c => negb (c =? sep)%N) a
    then a ++ hd [] (split sep b)
    else hd [] (split sep a).
Proof.
  induction a as [|c a IH]; simpl; [done|].
  destruct (c =? sep)%N; simpl; [done|].
  pose proof (split_nonempty sep (a ++ b)) as H1.
  pose proof (split_nonempty sep a) as H2.
  destruct (split sep (a ++ b)) as [|w ws]; [done|].
  destruct (split sep a) as [|w' ws']; [done|].
  simpl in *. rewrite IH. by destruct (forallb _ a).
Qed.

Lemma hd_split_comment a c :
  hd [] (split 35 (a ++ 35%N :: c)) = hd [] (split 35 a).
Proof.
  rewrite hd_split_app. simpl.
  destruct (forallb _ a) eqn:E; [|done].
  rewrite app_nil_r. clear c.
  induction a as [|x a IH]; simpl in *; [done|].
  apply andb_true_iff in E as [Hx Ha]. apply negb_true_iff in Hx.
  rewrite Hx. pose proof (split_nonempty 35 a) as Hn.
  destruct (split 35 a) as [|w ws]; [done|]. simpl in *.
  by rewrite IH.
Qed.

Lemma space_not_hash sp :
  forallb is_trim_space sp = true ->
  forallb (fun c => negb (c =? 35)%N) sp = true.
Proof.
  induction sp as [|c sp IH]; simpl; [done|]. intros H.
  apply andb_true_iff in H as [Hc H]. rewrite (IH H), andb_true_r.
  apply negb_true_iff, N.eqb_neq. intros ->. discriminate Hc.
Qed.

Lemma hd_split_no_sep sep a :
  forallb (fun c => negb (c =? sep)%N) a = true -> hd [] (split sep a) = a.
Proof.
  intros H. rewrite <- (app_nil_r a) at 1. rewrite hd_split_app, H.
  simpl. apply app_nil_r.
Qed.

Lemma drop_while_app_all p (sp x : jsstring) :
  forallb p sp = true -> drop_while p (sp ++ x) = drop_while p x.
Proof.
  induction sp as [|c sp IH]; simpl; [done|]. intros H.
  apply andb_true_iff in H as [-> H]. by apply IH.
Qed.

Lemma drop_while_app_keep p (x y : jsstring) :
  drop_while p x <> [] -> drop_while p (x ++ y) = drop_while p x ++ y.
Proof.
  induction x as [|c x IH]; simpl; [done|].
  destruct (p c); [exact IH | done].
Qed.

Lemma trim_margins sp1 x sp2 :
  forallb is_trim_space sp1 = true -> forallb is_trim_space sp2 = true ->
  trim (sp1 ++ x ++ sp2) = trim x.
Proof.
  intros H1 H2. unfold trim. rewrite (drop_while_app_all _ _ _ H1).
  destruct (drop_while is_trim_space x) as [|c y] eqn:E.
  - apply drop_while_nil in E.
    assert (drop_while is_trim_space (x ++ sp2) = []) as ->; [|done].
    apply drop_while_nil. rewrite forallb_app. by rewrite E, H2.
  - rewrite drop_while_app_keep by (by rewrite E). rewrite E.
    rewrite rev_app_distr. rewrite drop_while_app_all; [done|].
    by rewrite forallb_rev.
Qed.

(** X5.  What follows the first [#] of a line, and the white space
    around a line, do not change what the line parses to. *)
Theorem parseLine_ignores_comment_and_margins line :
  (forall comment, parseLine (line ++ 35%N :: comment) = parseLine line)
  /\ (forall sp1 sp2,
        forallb is_trim_space sp1 = true ->
        forallb is_trim_space sp2 = true ->
        parseLine (sp1 ++ line ++ sp2) = parseLine line).
Proof.
  split.
  - intros comment. unfold parseLine, parseLine_with.
    by rewrite hd_split_comment.
  - intros sp1 sp2 H1 H2. unfold parseLine, parseLine_with.
    replace (trim (hd [] (split 35 (sp1 ++ line ++ sp2))))
      with (trim (hd [] (split 35 line))); [done|].
    rewrite hd_split_app, (space_not_hash _ H1), hd_split_app.
    destruct (forallb _ line) eqn:E.
    + rewrite (hd_split_no_sep _ _ (space_not_hash _ H2)).
      rewrite (hd_split_no_sep _ _ E). symmetry. by apply trim_margins.
    + rewrite <- (app_nil_r (hd [] (split 35 line))) at 2.
      symmetry. by apply trim_margins.
Qed.

Lemma parseLine_ignores_comment_and_margins_witness :
  parseLine (str "  halt " ++ 35%N :: str " stop") = parseLine (str "  halt ")
  /\ parseLine (str "  " ++ str "halt" ++ str " ") = parseLine (str "halt").
Proof.
  split.
  - apply (proj1 (parseLine_ignores_comment_and_margins (str "  halt "))).
  - apply (proj2 (parseLine_ignores_comment_and_margins (str "halt")));
      reflexivity.
Defined.

End Margins.

(** ** Programs *)

Section Programs.

Lemma split_at_separator sep a b :
  split sep (a ++ sep :: b) = split sep a ++ split sep b.
Proof.
  induction a as [|c a IH]; simpl.
  - by rewrite N.eqb_refl.
  - destruct (c =? sep)%N; [by rewrite IH|]. rewrite IH.
    pose proof (split_nonempty sep a).
    by destruct (split sep a).
Qed.

Lemma map_parseLine_app tbl l1 l2 :
  map_parseLine tbl (l1 ++ l2)
  = match map_parseLine tbl l1 with
    | Throw e => Throw e
    | Ok r1 =>
        match map_parseLine tbl l2 with
        | Throw e => Throw e
        | Ok r2 => Ok (r1 ++ r2)
        end
    end.
Proof.
  induction l1 as [|l l1 IH]; simpl.
  - by destruct (map_parseLine tbl l2).
  - destruct (parseLine_with tbl l) as [r|e]; simpl; [|done].
    rewrite IH. destruct (map_parseLine tbl l1); simpl; [|done].
    by destruct (map_parseLine tbl l2).
Qed.

Lemma filter_truthy_app r1 r2 :
  filter_truthy (r1 ++ r2) = filter_truthy r1 ++ filter_truthy r2.
Proof.
  induction r1 as [|[i|] r1 IH]; simpl; [done | by rewrite IH | done].
Qed.

(** X13.  Assembling is line by line: the program [a], a line break, [b]
    assembles to the instructions of [a] followed by those of [b]; when
    [a] throws, or [a] assembles and [b] throws, it throws the same
    error. *)
Theorem parse_of_two_parts a b :
  parse (a ++ 10%N :: b)
  = match parse a with
    | Throw e => Throw e
    | Ok ia =>
        match parse b with
        | Throw e => Throw e
        | Ok ib => Ok (ia ++ ib)
        end
    end.
Proof.
  unfold parse, parse_with. rewrite split_at_separator, map_parseLine_app.
  destruct (map_parseLine _ (split 10 a)); simpl; [|done].
  destruct (map_parseLine _ (split 10 b)); simpl; [|done].
  by rewrite filter_truthy_app.
Qed.

(** The first line that throws decides the error. *)
Lemma map_parseLine_Throw tbl lines e :
  map_parseLine tbl lines = Throw e <->
  exists before l after,
    lines = before ++ l :: after
    /\ Forall (fun x => exists r, parseLine_with tbl x = Ok r) before
    /\ parseLine_with tbl l = Throw e.
Proof.
  split.
  - revert e. induction lines as [|l lines IH]; intros e; simpl; [done|].
    destruct (parseLine_with tbl l) as [r|e'] eqn:El; simpl.
    + destruct (map_parseLine tbl lines) as [rs|e''] eqn:E; simpl; [done|].
      intros [= ->]. destruct (IH _ eq_refl) as (bf & x & af & -> & Hb & Hx).
      exists (l :: bf), x, af. split_and!; [done | | done].
      constructor; [by eexists | done].
    + intros [= ->]. exists [], l, lines. by split_and!.
  - intros (bf & l & af & -> & Hb & Hl).
    induction Hb as [|x bf [r Hx] _ IH]; simpl.
    + by rewrite Hl.
    + by rewrite Hx, IH.
Qed.

(** X14.  [parse] throws exactly when a line throws, and it throws the
    error of the first such line. *)
Theorem parse_throws_the_first_error text e :
  parse text = Throw e <->
  exists before l after,
    split 10 text = before ++ l :: after
    /\ Forall (fun x => exists r, parseLine x = Ok r) before
    /\ parseLine l = Throw e.
Proof.
  unfold parse, parse_with, parseLine.
  rewrite <- map_parseLine_Throw.
  destruct (map_parseLine _ _); simpl.
  - split; intros H; discriminate H.
  - split; by intros [= ->].
Qed.

Lemma parse_throws_the_first_error_witness :
  parse (str "halt" ++ 10%N :: str "foo R1")
  = Throw (UnknownInstruction (str "foo")).
Proof.
  apply (proj2 (parse_throws_the_first_error
                  (str "halt" ++ 10%N :: str "foo R1")
                  (UnknownInstruction (str "foo")))).
  exists [str "halt"], (str "foo R1"), [].
  split_and!; [reflexivity | | reflexivity].
  constructor; [|constructor]. eexists. vm_compute. reflexivity.
Defined.

End Programs.

(** ** Assembling a program *)

Section Assembling.

Lemma join_lines_cons l l' lines :
  join_lines (l :: l' :: lines) = l ++ 10%N :: join_lines (l' :: lines).
Proof. reflexivity. Qed.

Lemma split_one_line l : one_line l = true -> split 10 l = [l].
Proof.
  unfold one_line. induction l as [|c l IH]; simpl; [done|].
  intros H. apply andb_true_iff in H as [Hc H].
  apply negb_true_iff in Hc. rewrite Hc, (IH H). reflexivity.
Qed.

(** [split] undoes [join_lines]. *)
Lemma split_join_lines l lines :
  Forall (fun x => one_line x = true) (l :: lines) ->
  split 10 (join_lines (l :: lines)) = l :: lines.
Proof.
  revert l. induction lines as [|l' lines IH]; intros l H.
  - apply split_one_line. by inversion H.
  - rewrite join_lines_cons, split_at_separator.
    inversion H as [|? ? Hl H']; subst.
    by rewrite (split_one_line _ Hl), (IH _ H').
Qed.

(** Every text is the text of its lines. *)
Lemma join_lines_split text :
  Forall (fun x => one_line x = true) (split 10 text)
  /\ join_lines (split 10 text) = text.
Proof.
  induction text as [|c text [IH1 IH2]]; simpl.
  - split; [by repeat constructor | done].
  - destruct (N.eqb_spec c 10) as [-> | Hc].
    + split; [by constructor|].
      pose proof (split_nonempty 10 text) as Hn.
      destruct (split 10 text) as [|w ws]; [done|].
      by rewrite join_lines_cons, IH2.
    + pose proof (split_nonempty 10 text) as Hn.
      destruct (split 10 text) as [|w ws]; [done|].
      inversion IH1 as [|? ? Hw Hws]; subst. split.
      * constructor; [|done]. unfold one_line in *. simpl.
        rewrite Hw, andb_true_r. by apply negb_true_iff, N.eqb_neq.
      * by destruct ws.
Qed.

Lemma Forall2_parsed (ls : list jsstring) (ins : list Instruction) :
  Forall2 (fun l i => parseLine l = Ok (Some i)) ls ins
  <-> List.map parseLine ls = List.map (fun i => Ok (Some i)) ins.
Proof.
  split.
  - induction 1 as [|l i ls' ins' H _ IH]; simpl; [done|]. by rewrite H, IH.
  - revert ins. induction ls as [|l ls IH]; intros [|i ins]; simpl; try done.
    intros [= H1 H2]. constructor; [done | by apply IH].
Qed.

Lemma map_Ok_Some_inj (a b : list Instruction) :
  List.map (fun i => @Ok (option Instruction) (Some i)) a
  = List.map (fun i => Ok (Some i)) b -> a = b.
Proof.
  revert b. induction a as [|x a IH]; intros [|y b]; simpl; try done.
  intros [= -> H]. by rewrite (IH _ H).
Qed.

(** Assembling, on the lines themselves. *)
Lemma parse_lines ls instructions :
  (rs ← map_parseLine INSTRUCTION_NUMBERS ls; Ok (filter_truthy rs))
  = Ok instructions
  <-> Forall2 (fun l i => parseLine l = Ok (Some i))
        (List.filter (fun l => negb (blank_or_comment l)) ls) instructions.
Proof.
  rewrite Forall2_parsed. split.
  - destruct (map_parseLine _ ls) as [rs|e] eqn:E; simpl; [|done].
    intros [= <-]. apply map_parseLine_Ok in E. symmetry.
    by apply filter_truthy_lines.
  - intros H.
    destruct (map_parseLine_total INSTRUCTION_NUMBERS ls) as [rs E].
    { intros l Hl. destruct (blank_or_comment l) eqn:B.
      - exists None. by apply parseLine_with_None.
      - assert (In l (List.filter (fun l => negb (blank_or_comment l)) ls))
          as Hin by (apply filter_In; by rewrite B).
        apply (in_map parseLine) in Hin. rewrite H in Hin.
        apply in_map_iff in Hin as (i & Hi & _). by exists (Some i). }
    rewrite E. simpl. f_equal. apply map_parseLine_Ok in E.
    apply filter_truthy_lines in E. apply map_Ok_Some_inj.
    unfold parseLine in H. congruence.
Qed.

(** C8.  Every text is the text of its lines, the strings without a line
    break that a line break separates.  [parse] returns exactly when
    every line that is not blank and not a comment alone parses to an
    instruction, and what it returns is these instructions and no other,
    in the order of their lines.  A line parses to "no instruction"
    exactly when it is white space up to its end or up to its first
    [#]. *)
Theorem parse_keeps_instruction_lines_in_order
  (lines : list jsstring) (instructions : list Instruction) :
  Forall (fun l => one_line l = true) lines ->
  (parse (join_lines lines) = Ok instructions
   <-> Forall2 (fun l i => parseLine l = Ok (Some i))
         (List.filter (fun l => negb (blank_or_comment l)) lines)
         instructions)
  /\ (forall line, parseLine line = Ok None <-> blank_or_comment line = true)
  /\ (forall text,
        exists lines',
          Forall (fun l => one_line l = true) lines'
          /\ join_lines lines' = text).
Proof.
  intros Hl. split_and!.
  - unfold parse, parse_with. destruct lines as [|l lines].
    + simpl. split.
      * intros [= <-]. constructor.
      * by inversion 1.
    + rewrite (split_join_lines _ _ Hl). apply parse_lines.
  - intros line. apply parseLine_with_None.
  - intros text. exists (split 10 text). apply join_lines_split.
Qed.

Lemma parse_keeps_instruction_lines_in_order_witness :
  parse sample_program
  = Ok [{| args := [Fin 1; Fin 2; Fin 3]; evaluate := Eadd;
           hex := str "4123" |};
        {| args := []; evaluate := Ehalt; hex := str "F000" |}].
Proof.
  apply (proj2 (proj1 (parse_keeps_instruction_lines_in_order
                         [str "add R1 R2 R3"; str "  # note"; [];
                          str "halt # stop"]
                         [{| args := [Fin 1; Fin 2; Fin 3]; evaluate := Eadd;
                             hex := str "4123" |};
                          {| args := []; evaluate := Ehalt;
                             hex := str "F000" |}]
                         ltac:(repeat constructor)))).
  repeat constructor.
Defined.

End Assembling.

(** ** The grammar of a line *)

Section Grammar.




(** X2.  The mnemonic token of a line is the longest alphanumeric prefix
    of the line once its comment and margins are stripped: it is not
    empty, an alphanumeric does not follow it, and a line with a line
    terminator after it has no token. *)
Theorem mnemonic_is_the_longest_alphanumeric_prefix line name :
  mnemonic_token line = Some name <->
  exists rest,
    trim (hd [] (split 35 line)) = name ++ rest
    /\ name <> [] /\ forallb is_alnum name = true
    /\ stops is_alnum rest
    /\ forallb (fun c => negb (is_line_terminator c)) rest = true.
Proof.
  unfold mnemonic_token. split.
  - destruct (match_COMMAND _) as [[n r]|] eqn:E; [|done].
    simpl. intros [= ->]. exists r. by apply match_COMMAND_spec.
  - intros (rest & H). apply match_COMMAND_spec in H. by rewrite H.
Qed.

(** X3.  [instruction in PATTERNS]: a name finds an entry of the table
    exactly when it is, letter for letter, one of the eleven mnemonics;
    it passes the test without being an entry exactly when it is a name
    inherited from [Object.prototype]; every other name fails the
    test. *)
Theorem table_lookup_is_exact name :
  (forall key, lookup name = Own key <-> name = mnemonic_name key)
  /\ (lookup name = Inherited <-> name ∈ Object_prototype_names)
  /\ (lookup name = Absent <->
      (forall key, name <> mnemonic_name key)
      /\ name ∉ Object_prototype_names).
Proof.
  assert (forall key, name ∈ Object_prototype_names ->
                      name <> mnemonic_name key) as Hdis.
  { intros key Hin ->. by destruct key; vm_compute in Hin;
      repeat (apply elem_of_cons in Hin as [Hin | Hin]; [done|]);
      apply elem_of_nil in Hin. }
  split_and!.
  - intros key. split.
    + intros H. symmetry. by apply lookup_Own.
    + intros ->. apply lookup_mnemonic_name.
  - split.
    + unfold lookup. destruct (List.find _ _); [done|].
      by destruct (bool_decide_reflect (name ∈ Object_prototype_names)).
    + intros Hin. rewrite lookup_not_Own.
      * by rewrite bool_decide_eq_true_2.
      * intros k E. by apply (Hdis k).
  - split.
    + intros H. split.
      * intros key ->. by rewrite lookup_mnemonic_name in H.
      * intros Hin. revert H. unfold lookup. destruct (List.find _ _); [done|].
        by rewrite bool_decide_eq_true_2.
    + intros [H1 H2]. rewrite lookup_not_Own.
      * by rewrite bool_decide_eq_false_2.
      * intros k E. by apply (H1 k).
Qed.

Lemma mnemonic_is_the_longest_alphanumeric_prefix_witness :
  mnemonic_token (str " add R1 R2 R3 # sum") = Some (str "add").
Proof.
  apply (proj2 (mnemonic_is_the_longest_alphanumeric_prefix
                  (str " add R1 R2 R3 # sum") (str "add"))).
  exists (str " R1 R2 R3").
  split_and!; [reflexivity | discriminate | reflexivity | reflexivity
              | reflexivity].
Defined.

Lemma table_lookup_is_exact_witness :
  lookup (str "subt") = Own Ksubt /\ lookup (str "valueOf") = Inherited.
Proof.
  split.
  - apply (proj1 (table_lookup_is_exact (str "subt")) Ksubt). reflexivity.
  - apply (proj1 (proj2 (table_lookup_is_exact (str "valueOf")))).
    vm_compute. do 6 apply list_elem_of_further. apply list_elem_of_here.
Defined.

End Grammar.

(** ** The errors of a line *)

Section Errors.

(** [parseLine] by cases on its line. *)
Lemma parseLine_cases line :
  parseLine line
  = if blank_or_comment line then Ok None
    else
      match mnemonic_token line, operand_text line with
      | Some name, Some text =>
          match lookup name with
          | Absent => Throw (UnknownInstruction name)
          | Inherited => Throw TypeError
          | Own key =>
              match regex_match (makeRegex (PATTERNS key).1) text with
              | None => Throw (UnableToParseArguments name text)
              | Some groups =>
                  h ← toHex
                        (encode INSTRUCTION_NUMBERS key
                           (default 0%nat (registers (PATTERNS key).1))
                           (default false (immediate (PATTERNS key).1))
                           (List.map parseInt groups)) 4;
                  Ok (Some {| args := List.map parseInt groups;
                              evaluate := (PATTERNS key).2;
                              hex := toUpperCase h |})
              end
          end
      | _, _ => Throw (UnableToParseName (trim (hd [] (split 35 line))))
      end.
Proof.
  unfold parseLine, parseLine_with, mnemonic_token, operand_text.
  rewrite stripped_empty. destruct (blank_or_comment line); [done|].
  destruct (match_COMMAND _) as [[name rest]|]; [|done]. simpl.
  destruct (lookup name) as [key| |]; [|done|done].
  rewrite js_gt_INSTRUCTION_NUMBERS. by destruct (PATTERNS key).
Qed.

Local Ltac finish_toHex H :=
  unfold toHex in H; change (16 ^ Z.of_nat 4) with 65536 in H;
  case_match; simpl in H; simplify_eq; eauto;
  try (do 4 eexists; split_and!; (done || reflexivity)).

(** X4.  Every error of [parseLine] has one cause.  The invalid-number
    error is never thrown with the table of the program.  The name error
    is thrown exactly on the lines that are not blank and have no
    mnemonic token, and carries the stripped line.  The error of an
    unknown instruction is thrown exactly when the token is neither a
    mnemonic nor an inherited name, a TypeError exactly when it is an
    inherited name, the operand error exactly when the token is a mnemonic
    and the operand text does not match its shape, and the conversion
    error exactly when the operands match and the word is 65536 or
    more. *)
Theorem causes_of_errors line :
  (forall n, parseLine line <> Throw (InvalidInstructionNumber n))
  /\ (forall l, parseLine line = Throw (UnableToParseName l) <->
                blank_or_comment line = false
                /\ mnemonic_token line = None
                /\ l = trim (hd [] (split 35 line)))
  /\ (forall name, parseLine line = Throw (UnknownInstruction name) <->
                   mnemonic_token line = Some name /\ lookup name = Absent)
  /\ (parseLine line = Throw TypeError <->
      exists name, mnemonic_token line = Some name
                   /\ lookup name = Inherited)
  /\ (forall name text,
        parseLine line = Throw (UnableToParseArguments name text) <->
        exists key,
          mnemonic_token line = Some name /\ lookup name = Own key
          /\ operand_text line = Some text
          /\ regex_match (makeRegex (PATTERNS key).1) text = None)
  /\ (forall d,
        parseLine line = Throw (UnableToConvert d) <->
        exists name key text groups,
          mnemonic_token line = Some name /\ lookup name = Own key
          /\ operand_text line = Some text
          /\ regex_match (makeRegex (PATTERNS key).1) text = Some groups
          /\ d = encode INSTRUCTION_NUMBERS key
                   (default 0%nat (registers (PATTERNS key).1))
                   (default false (immediate (PATTERNS key).1))
                   (List.map parseInt groups)
          /\ js_ge d 65536 = true).
Proof.
  assert (forall name, mnemonic_token line = Some name ->
            blank_or_comment line = false
            /\ exists text, operand_text line = Some text) as Htok.
  { intros name H. apply token_text in H as (rest & _ & ? & ?). eauto. }
  rewrite parseLine_cases. split_and!.
  - intros n H. repeat case_match; simplify_eq; finish_toHex H.
  - intros l. split.
    + intros H. repeat case_match; simplify_eq; try done; try finish_toHex H.
      destruct (Htok _ eq_refl) as [_ [? ?]]. done.
    + intros (-> & -> & ->). done.
  - intros name. split.
    + intros H. repeat case_match; simplify_eq; try done; finish_toHex H.
    + intros [Ht Hl]. destruct (Htok _ Ht) as [-> [text ->]].
      by rewrite Ht, Hl.
  - split.
    + intros H. repeat case_match; simplify_eq; eauto; finish_toHex H.
    + intros (name & Ht & Hl). destruct (Htok _ Ht) as [-> [text ->]].
      by rewrite Ht, Hl.
  - intros name text. split.
    + intros H. repeat case_match; simplify_eq; eauto; finish_toHex H.
    + intros (key & Ht & Hl & Ho & Hr). destruct (Htok _ Ht) as [-> _].
      by rewrite Ht, Ho, Hl, Hr.
  - intros d. split.
    + intros H. repeat case_match; simplify_eq; finish_toHex H.
    + intros (name & key & text & groups & Ht & Hl & Ho & Hr & -> & Hg).
      destruct (Htok _ Ht) as [-> _]. rewrite Ht, Ho, Hl, Hr.
      unfold toHex. change (16 ^ Z.of_nat 4) with 65536. by rewrite Hg.
Qed.

Lemma causes_of_errors_witness :
  parseLine (str "foo R1") = Throw (UnknownInstruction (str "foo"))
  /\ parseLine (str "add R1 R2")
     = Throw (UnableToParseArguments (str "add") (str "R1 R2")).
Proof.
  split.
  - apply (proj1 (proj2 (proj2 (causes_of_errors (str "foo R1"))))
             (str "foo")).
    split; reflexivity.
  - apply (proj1 (proj2 (proj2 (proj2 (proj2 (causes_of_errors
                                               (str "add R1 R2"))))))
             (str "add") (str "R1 R2")).
    exists Kadd. split_and!; reflexivity.
Defined.

End Errors.

(** ** Parsed instructions *)

Section Parsed.



(** X10.  Every operand of a parsed instruction is a non-negative integer,
    or infinity when its digits exceed the range of the doubles: never
    negative, never NaN. *)
Theorem parsed_operands_are_not_negative line ins :
  parseLine line = Ok (Some ins) -> Forall operand_value (args ins).
Proof.
  intros H. apply parseLine_with_Some in H
    as (name & rest & key & groups & h & _ & _ & _ & _ & Hr & _ & ->).
  simpl. by eapply regex_match_operands.
Qed.

Lemma parsed_operands_are_not_negative_witness :
  Forall operand_value [Fin 1; Fin 2; Fin 3].
Proof.
  apply (parsed_operands_are_not_negative (str "add R1 R2 R3")
           {| args := [Fin 1; Fin 2; Fin 3]; evaluate := Eadd;
              hex := str "4123" |}).
  vm_compute. reflexivity.
Defined.

(** X12.  Among the parsed instructions, the action returns [true]
    exactly for the lines whose mnemonic is [halt], whatever the state;
    and then the state is left as it was. *)
Theorem only_halt_stops line ins s :
  parseLine line = Ok (Some ins) ->
  ((call (evaluate ins) (args ins) s).2 = true
   <-> mnemonic_token line = Some (str "halt"))
  /\ ((call (evaluate ins) (args ins) s).2 = true ->
      (call (evaluate ins) (args ins) s).1 = s).
Proof.
  intros H. apply parseLine_with_Some in H
    as (name & rest & key & groups & h & _ & Hm & Hl & _ & _ & _ & ->).
  simpl. unfold mnemonic_token. rewrite Hm. simpl.
  apply lookup_Own in Hl. subst name. split.
  - destruct key; simpl; split; intros E; try done;
      by vm_compute in E.
  - by destruct key.
Qed.

Lemma only_halt_stops_witness :
  ((call Ehalt [] initial).2 = true
   <-> mnemonic_token (str "halt") = Some (str "halt"))
  /\ ((call Ehalt [] initial).2 = true -> (call Ehalt [] initial).1 = initial).
Proof.
  apply (only_halt_stops (str "halt")
           {| args := []; evaluate := Ehalt; hex := str "F000" |} initial).
  vm_compute. reflexivity.
Defined.

Lemma parsed_word_witness :
  exists z,
    encode INSTRUCTION_NUMBERS Kmov1
      (default 0%nat (registers (PATTERNS Kmov1).1))
      (default false (immediate (PATTERNS Kmov1).1)) [Fin 1; Fin 255] = Fin z
    /\ z < 65536
    /\ (0 <= z -> str "01FF" = HEX_word z)
    /\ (z < 0 -> In 45%N (str "01FF")).
Proof.
  apply (parsed_word (str "mov1 R1 255") (str "mov1") Kmov1
           {| args := [Fin 1; Fin 255]; evaluate := Emov1;
              hex := str "01FF" |});
    vm_compute; reflexivity.
Defined.

Lemma parsed_arity_witness :
  List.length [Fin 1; Fin 255] = arity Emov1.
Proof.
  apply (parsed_arity (str "mov1 R1 255")
           {| args := [Fin 1; Fin 255]; evaluate := Emov1;
              hex := str "01FF" |}).
  vm_compute. reflexivity.
Defined.

End Parsed.

(** ** Words and instructions *)

Section Unambiguous.

Lemma HEX_word_inj z1 z2 :
  0 <= z1 < 65536 -> 0 <= z2 < 65536 -> HEX_word z1 = HEX_word z2 -> z1 = z2.
Proof.
  intros H1 H2 E. unfold HEX_word in E.
  injection E as E3 E2 E1 E0.
  apply (f_equal HEX_value) in E3, E2, E1, E0.
  rewrite !HEX_value_char in E3, E2, E1, E0
    by (Z.div_mod_to_equations; lia).
  injection E3 as E3. injection E2 as E2. injection E1 as E1.
  injection E0 as E0. Z.div_mod_to_equations. lia.
Qed.

(** The instruction of a line that parses with fitting operands. *)
Lemma fitting_instruction line name key ins :
  parseLine line = Ok (Some ins) ->
  mnemonic_token line = Some name -> lookup name = Own key ->
  operands_fit (PATTERNS key).1 (args ins) = true ->
  List.length (args ins) = List.length (makeRegex (PATTERNS key).1)
  /\ evaluate ins = (PATTERNS key).2
  /\ hex ins
     = HEX_word (integer (INSTRUCTION_NUMBERS key) * 4096
                 + operand_sum (default 0%nat (registers (PATTERNS key).1))
                     (default false (immediate (PATTERNS key).1))
                     (args ins)).
Proof.
  intros Hp Ht Hl Hfit.
  destruct (parseLine_with_Own INSTRUCTION_NUMBERS _ _ _ Ht Hl)
    as (text & Ho & E).
  unfold parseLine in Hp. rewrite Hp, js_gt_INSTRUCTION_NUMBERS in E.
  destruct (regex_match _ text) as [groups|] eqn:Hr; [|done].
  assert (args ins = List.map parseInt groups) as Ha.
  { destruct (toHex _ 4); simpl in E; [|done]. by injection E as ->. }
  rewrite Ha in Hfit.
  pose proof (fitting_line_parses _ _ _ _ _ Ht Hl Ho Hr Hfit) as Hw.
  unfold parseLine in Hw. rewrite Hp in Hw. injection Hw as ->.
  cbn [args evaluate hex]. split_and!; [|done|done].
  rewrite length_map. by apply regex_match_length in Hr.
Qed.

Local Arguments Z.mul : simpl never.
Local Arguments Z.add : simpl never.
Local Arguments Z.pow : simpl never.
Local Arguments Z.sub : simpl never.

Lemma operand_sum_inj key n1 n2 :
  List.length n1 = List.length (makeRegex (PATTERNS key).1) ->
  List.length n2 = List.length (makeRegex (PATTERNS key).1) ->
  operands_fit (PATTERNS key).1 n1 = true ->
  operands_fit (PATTERNS key).1 n2 = true ->
  operand_sum (default 0%nat (registers (PATTERNS key).1))
    (default false (immediate (PATTERNS key).1)) n1
  = operand_sum (default 0%nat (registers (PATTERNS key).1))
      (default false (immediate (PATTERNS key).1)) n2 ->
  n1 = n2.
Proof.
  intros L1 L2 F1 F2.
  destruct key; simpl in L1, L2;
    repeat (destruct n1 as [|? n1]; try discriminate L1);
    repeat (destruct n2 as [|? n2]; try discriminate L2);
    unfold operands_fit in F1, F2; simpl in F1, F2;
    rewrite ?andb_true_r in F1, F2;
    repeat (apply andb_true_iff in F1 as [? F1]);
    repeat (apply andb_true_iff in F2 as [? F2]);
    repeat match goal with
           | H : fits _ _ = true |- _ =>
               apply fits_inv in H as (? & -> & ?)
           end;
    unfold operand_sum; simpl;
    change (16 ^ (2 - Z.of_nat 0)) with 256;
    change (16 ^ (2 - Z.of_nat 1)) with 16;
    change (16 ^ (2 - Z.of_nat 2)) with 1;
    change (2 ^ 4) with 16 in *;
    change (2 ^ (4 * (3 - Z.of_nat 1))) with 256 in *;
    change (2 ^ (4 * (3 - Z.of_nat 0))) with 4096 in *;
    intros E; repeat f_equal; lia.
Qed.

(** X8.  Among the lines whose operands fit their fields, the word tells
    the instruction: two such lines with the same hex field have the same
    mnemonic, the same action and the same operand values. *)
Theorem fitting_words_are_unambiguous
  line1 line2 name1 name2 key1 key2 ins1 ins2 :
  parseLine line1 = Ok (Some ins1) -> parseLine line2 = Ok (Some ins2) ->
  mnemonic_token line1 = Some name1 -> lookup name1 = Own key1 ->
  mnemonic_token line2 = Some name2 -> lookup name2 = Own key2 ->
  operands_fit (PATTERNS key1).1 (args ins1) = true ->
  operands_fit (PATTERNS key2).1 (args ins2) = true ->
  hex ins1 = hex ins2 ->
  name1 = name2 /\ ins1 = ins2.
Proof.
  intros P1 P2 T1 L1 T2 L2 F1 F2 E.
  destruct (fitting_instruction _ _ _ _ P1 T1 L1 F1) as (A1 & V1 & W1).
  destruct (fitting_instruction _ _ _ _ P2 T2 L2 F2) as (A2 & V2 & W2).
  destruct (encode_fit key1 (args ins1) A1 F1) as [B1 _].
  destruct (encode_fit key2 (args ins2) A2 F2) as [B2 _].
  destruct (INSTRUCTION_NUMBERS_4_bits key1) as (c1 & C1 & C1').
  destruct (INSTRUCTION_NUMBERS_4_bits key2) as (c2 & C2 & C2').
  rewrite W1, W2, C1, C2 in E. cbn [integer] in E.
  apply HEX_word_inj in E; [|lia|lia].
  assert (c1 = c2) as -> by lia.
  assert (key1 = key2) as ->.
  { apply INSTRUCTION_NUMBERS_unique. congruence. }
  assert (args ins1 = args ins2) as Ha.
  { apply (operand_sum_inj key2); try done. lia. }
  split.
  - apply lookup_Own in L1, L2. congruence.
  - destruct ins1, ins2. simpl in *. congruence.
Qed.

Lemma fitting_words_are_unambiguous_witness :
  str "mul" = str "mul"
  /\ {| args := [Fin 1; Fin 2; Fin 3]; evaluate := Emul; hex := str "8123" |}
     = {| args := [Fin 1; Fin 2; Fin 3]; evaluate := Emul;
          hex := str "8123" |}.
Proof.
  apply (fitting_words_are_unambiguous
           (str "mul R1 R2 R3") (str " mul R01   R2 R3 # again")
           (str "mul") (str "mul") Kmul Kmul);
    vm_compute; reflexivity.
Defined.

End Unambiguous.
